(** * spectral-report: a shallow embedding of [scripts/spectral-report.mjs]

    The script discovers OpenAPI documents, runs the Spectral linter on
    each of them, groups the findings by rule and prints one JSON report.
    The definitions below follow the current revision of the script (the
    one that resolves paths against [REPO_ROOT] and carries
    [SEVERITY_LABELS]); they keep its names. *)

From Stdlib Require Import List String Ascii Bool Arith ZArith NArith Lia.
From Stdlib Require Import DecimalString Permutation Sorted.
#[local] Set Warnings "-register-all".
Import ListNotations.
Open Scope string_scope.

(** ** Strings *)

(** [ends_with suf s]: [s] is some prefix followed by [suf]. *)
Definition ends_with (suf s : string) : Prop := exists pre, s = pre ++ suf.

(** [String.prototype.startsWith]. *)
Definition startsWith (s p : string) : bool := String.prefix p s.

(** ** The regular expressions of [SPEC_PATTERNS]

    The four patterns only use literal characters, one optional character
    ([a?]) and the anchors [^] and [$].  A pattern is a sequence of atoms
    with two anchor flags; [test] is [RegExp.prototype.test] without flags:
    an unanchored pattern is tried at every start position, and [$] only
    matches at the very end of the input. *)
Module Regex.

Inductive atom : Type :=
| Lit (c : ascii)
| Opt (c : ascii).

Record t : Type := mk
  { anchor_start : bool; atoms : list atom; anchor_end : bool }.

Fixpoint lits (s : string) : list atom :=
  match s with
  | EmptyString => []
  | String c s' => Lit c :: lits s'
  end.

Fixpoint match_here (p : list atom) (dollar : bool) (s : string) : bool :=
  match p with
  | [] =>
      if dollar
      then match s with EmptyString => true | String _ _ => false end
      else true
  | Lit c :: p' =>
      match s with
      | String c' s' => Ascii.eqb c c' && match_here p' dollar s'
      | EmptyString => false
      end
  | Opt c :: p' =>
      match s with
      | String c' s' => Ascii.eqb c c' && match_here p' dollar s'
      | EmptyString => false
      end
      || match_here p' dollar s
  end.

Fixpoint search (p : list atom) (dollar : bool) (s : string) : bool :=
  match_here p dollar s
  || match s with
     | EmptyString => false
     | String _ s' => search p dollar s'
     end.

Definition test (r : t) (s : string) : bool :=
  if anchor_start r
  then match_here (atoms r) (anchor_end r) s
  else search (atoms r) (anchor_end r) s.

(** The finitely many strings a sequence of atoms spells out. *)
Fixpoint expand (p : list atom) : list string :=
  match p with
  | [] => [EmptyString]
  | Lit c :: p' => map (String c) (expand p')
  | Opt c :: p' => map (String c) (expand p') ++ expand p'
  end.

End Regex.

(** ** Spec Locator *)

Definition SPEC_PATTERNS : list Regex.t :=
  [ Regex.mk false (Regex.lits ".openapi.y" ++ [Regex.Opt "a"] ++ Regex.lits "ml") true;
    Regex.mk false (Regex.lits ".openapi.json") true;
    Regex.mk true (Regex.lits "openapi.y" ++ [Regex.Opt "a"] ++ Regex.lits "ml") true;
    Regex.mk true (Regex.lits "openapi.json") true ].

Definition isSpecFile (filename : string) : bool :=
  existsb (fun p => Regex.test p filename) SPEC_PATTERNS.

(** What the script can observe of a directory entry: [statSync] throws
    ([Unreachable]), or reports a regular file, a directory or something
    else; [readdirSync] of a directory yields its entries in the order of
    the file system, or throws ([Directory None]). *)
Inductive node : Type :=
| File
| Directory (listing : option (list (string * node)))
| Special
| Unreachable.

Definition readdirSync (n : node) : option (list (string * node)) :=
  match n with
  | Directory listing => listing
  | _ => None
  end.

(** [path.join] of a normalised directory and an entry name. *)
Definition join (dir entry : string) : string := dir ++ "/" ++ entry.

(** [processEntry]; [descend full child] stands for the call
    [findSpecs(full, depth - 1)], [child] being what is found at [full]. *)
Definition processEntry (descend : string -> node -> list string)
    (dir entry : string) (child : node) : list string :=
  if startsWith entry "." || (entry =? "node_modules") then []
  else
    let full := join dir entry in
    match child with
    | Unreachable => []
    | File => if isSpecFile entry then [full] else []
    | Directory _ => descend full child
    | Special => []
    end.

Fixpoint findSpecs (dir : string) (here : node) (depth : nat) : list string :=
  match depth with
  | 0 => []
  | S depth' =>
      match readdirSync here with
      | Some entries =>
          flat_map
            (fun e => processEntry (fun full child => findSpecs full child depth')
                        dir (fst e) (snd e))
            entries
      | None => []
      end
  end.

(** The file names the four patterns accept. *)
Definition spec_name (name : string) : Prop :=
  ends_with ".openapi.yaml" name \/ ends_with ".openapi.yml" name \/
  ends_with ".openapi.json" name \/
  name = "openapi.yaml" \/ name = "openapi.yml" \/ name = "openapi.json".

(** The file names the specification lists. *)
Definition listed_spec_name (name : string) : Prop :=
  ends_with ".openapi.yaml" name \/ ends_with ".openapi.json" name \/
  name = "openapi.yaml" \/ name = "openapi.json".

(** ** Numbers and text *)

(** [String(n)] for a non-negative integer. *)
Definition decimal (n : N) : string := NilEmpty.string_of_uint (N.to_uint n).

(** The array indices of ECMAScript: the keys that are the canonical
    decimal text of an integer below [2^32 - 1]. *)
Definition array_index (key : string) : option N :=
  match NilEmpty.uint_of_string key with
  | Some d =>
      let n := N.of_uint d in
      if (decimal n =? key) && (n <? 4294967295)%N then Some n else None
  | None => None
  end.

(** ** [Array.prototype.sort]

    The sort is stable and [cmp a b < 0] puts [a] first; for a consistent
    comparator this fixes the result, computed here by insertion. *)
Section Sort.
Context {A : Type} (cmp : A -> A -> Z).

Fixpoint insert (x : A) (l : list A) : list A :=
  match l with
  | [] => [x]
  | y :: l' => if (cmp x y <=? 0)%Z then x :: l else y :: insert x l'
  end.

Fixpoint sort (l : list A) : list A :=
  match l with
  | [] => []
  | x :: l' => insert x (sort l')
  end.
End Sort.

(** ** Plain objects used as maps

    An object created by [{}] is its own properties in creation order, on
    top of [Object.prototype].  Reading a key finds an own property, else
    an inherited one.  [Object.entries] lists the own properties: array
    indices first, in ascending numeric order, then the other keys in
    creation order. *)
Module JsObject.

Definition t (V : Type) : Type := list (string * V).

Definition prototype_keys : list string :=
  [ "constructor"; "__defineGetter__"; "__defineSetter__"; "hasOwnProperty";
    "__lookupGetter__"; "__lookupSetter__"; "isPrototypeOf";
    "propertyIsEnumerable"; "toString"; "valueOf"; "__proto__";
    "toLocaleString" ].

Inductive lookup (V : Type) : Type :=
| Own (v : V)
| Inherited
| Undefined.
Arguments Own {V} v.
Arguments Inherited {V}.
Arguments Undefined {V}.

Definition is_key {V : Type} (key : string) (p : string * V) : bool :=
  fst p =? key.

Definition get {V : Type} (o : t V) (key : string) : lookup V :=
  match find (is_key key) o with
  | Some p => Own (snd p)
  | None => if existsb (String.eqb key) prototype_keys then Inherited else Undefined
  end.

(** Assignment to a key that is not yet an own property. *)
Definition define {V : Type} (o : t V) (key : string) (v : V) : t V :=
  (o ++ [(key, v)])%list.

(** In-place change of the value held by an own property. *)
Definition update {V : Type} (o : t V) (key : string) (f : V -> V) : t V :=
  map (fun p => if is_key key p then (fst p, f (snd p)) else p) o.

Definition is_index {V : Type} (p : string * V) : bool :=
  match array_index (fst p) with Some _ => true | None => false end.

Definition index_of {V : Type} (p : string * V) : Z :=
  match array_index (fst p) with Some n => Z.of_N n | None => 0 end.

Definition entries {V : Type} (o : t V) : list (string * V) :=
  (sort (fun a b => index_of a - index_of b)%Z (filter is_index o)
   ++ filter (fun p => negb (is_index p)) o)%list.

End JsObject.

(** ** Findings *)

(** One segment of a finding's [path]: a property name or an array
    position. *)
Inductive segment : Type :=
| Key (name : string)
| Index (position : N).

Definition segment_text (s : segment) : string :=
  match s with
  | Key name => name
  | Index position => decimal position
  end.

(** What [v.range?.start?.line] evaluates to: [undefined] when [range],
    [start] or [line] is missing, a number, or a value of another type.
    Line numbers are integers far below [2^53], where [+ 1] is exact. *)
Inductive line_value : Type :=
| LineMissing
| LineNumber (n : Z)
| LineOther.

(** A record of the linter's JSON output. *)
Record Finding : Type := mkFinding
  { code : string;
    message : string;
    severity : Z;
    path : list segment;
    range_start_line : line_value }.

Record Location : Type := mkLocation
  { loc_path : string;
    loc_line : option Z;        (* [None] is the JSON value [null] *)
    loc_message : string }.

(** The value kept per rule while grouping. *)
Module Group.
Record t : Type := mk
  { count : nat; severity : Z; locations : list Location }.
End Group.

Module RuleGroup.
Record t : Type := mk
  { rule : string;
    severity : string;
    count : nat;
    locations : list Location;
    truncated : option string }.  (* [None]: the property is not there *)
End RuleGroup.

Record Counts : Type := mkCounts
  { errors : nat; warnings : nat; total : nat }.

Record FileReport : Type := mkFileReport
  { spec : string;
    pass : bool;
    counts : Counts;
    ruleBreakdown : list RuleGroup.t }.

Record Report : Type := mkReport
  { allPass : bool; results : list FileReport }.

(** ** Finding Aggregator *)

Definition SEVERITY_LABELS : list (Z * string) :=
  [ (0, "error"); (1, "warning"); (2, "info"); (3, "hint") ]%Z.

(** [SEVERITY_LABELS[s] ?? "unknown"]. *)
Definition severity_label (s : Z) : string :=
  match find (fun p => (fst p =? s)%Z) SEVERITY_LABELS with
  | Some p => snd p
  | None => "unknown"
  end.

Definition location_of (v : Finding) : Location :=
  {| loc_path := String.concat "." (map segment_text (path v));
     loc_line :=
       match range_start_line v with
       | LineNumber n => Some (n + 1)%Z
       | _ => None
       end;
     loc_message := message v |}.

(** [byRule[v.code].count++] followed by the [push]. *)
Definition record_finding (v : Finding) (g : Group.t) : Group.t :=
  {| Group.count := S (Group.count g);
     Group.severity := Group.severity g;
     Group.locations := Group.locations g ++ [location_of v] |}.

(** A rule named like a property of [Object.prototype]. *)
Definition shadowed (v : Finding) : bool :=
  existsb (String.eqb (code v)) JsObject.prototype_keys.

(** One turn of the grouping loop.  When the rule's name is a property of
    [Object.prototype], [byRule[v.code]] is that inherited value: it is
    truthy, so no group is created, it has no [locations], and the [push]
    throws a [TypeError] ([None]). *)
Definition group_step (byRule : JsObject.t Group.t) (v : Finding)
  : option (JsObject.t Group.t) :=
  match JsObject.get byRule (code v) with
  | JsObject.Own _ => Some (JsObject.update byRule (code v) (record_finding v))
  | JsObject.Undefined =>
      let fresh := {| Group.count := 0; Group.severity := severity v;
                      Group.locations := [] |} in
      Some (JsObject.update (JsObject.define byRule (code v) fresh)
              (code v) (record_finding v))
  | JsObject.Inherited => None
  end.

Definition group_by_rule (violations : list Finding)
  : option (JsObject.t Group.t) :=
  fold_left
    (fun acc v => match acc with Some byRule => group_step byRule v | None => None end)
    violations (Some []).

(** The comparator handed to [sort]:
    [a.severity - b.severity || b.count - a.count]. *)
Definition compare_groups (a b : string * Group.t) : Z :=
  let d := (Group.severity (snd a) - Group.severity (snd b))%Z in
  if (d =? 0)%Z
  then (Z.of_nat (Group.count (snd b)) - Z.of_nat (Group.count (snd a)))%Z
  else d.

(** The object literal built by the final [map]. *)
Definition rule_group (e : string * Group.t) : RuleGroup.t :=
  let data := snd e in
  {| RuleGroup.rule := fst e;
     RuleGroup.severity := severity_label (Group.severity data);
     RuleGroup.count := Group.count data;
     RuleGroup.locations := firstn 5 (Group.locations data);
     RuleGroup.truncated :=
       if (5 <? List.length (Group.locations data))%nat
       then Some (decimal (N.of_nat (List.length (Group.locations data) - 5)) ++ " more")
       else None |}.

(** [summarize]; [None] when the grouping loop throws. *)
Definition summarize (specPath : string) (violations : list Finding)
  : option FileReport :=
  let errors := filter (fun v => (severity v =? 0)%Z) violations in
  let warnings := filter (fun v => (severity v =? 1)%Z) violations in
  match group_by_rule violations with
  | None => None
  | Some byRule =>
      Some {| spec := specPath;
              pass := (List.length errors =? 0)%nat;
              counts := {| errors := List.length errors;
                           warnings := List.length warnings;
                           total := List.length violations |};
              ruleBreakdown :=
                map rule_group (sort compare_groups (JsObject.entries byRule)) |}
  end.

(** ** The report as JSON

    [JSON.stringify] writes the properties an object has, in order; a
    property holding [null] is written, a property that was never set is
    not. *)
Inductive json : Type :=
| JNull
| JBool (b : bool)
| JNumber (n : Z)
| JString (s : string)
| JArray (items : list json)
| JObject (fields : list (string * json)).

Definition field (name : string) (j : json) : option json :=
  match j with
  | JObject fields =>
      match find (fun p => fst p =? name) fields with
      | Some p => Some (snd p)
      | None => None
      end
  | _ => None
  end.

Definition location_json (l : Location) : json :=
  JObject
    [ ("path", JString (loc_path l));
      ("line", match loc_line l with Some n => JNumber n | None => JNull end);
      ("message", JString (loc_message l)) ].

Definition rule_group_json (g : RuleGroup.t) : json :=
  JObject
    ([ ("rule", JString (RuleGroup.rule g));
       ("severity", JString (RuleGroup.severity g));
       ("count", JNumber (Z.of_nat (RuleGroup.count g)));
       ("locations", JArray (map location_json (RuleGroup.locations g))) ]
     ++ match RuleGroup.truncated g with
        | Some text => [("truncated", JString text)]
        | None => []
        end).

Definition file_report_json (r : FileReport) : json :=
  JObject
    [ ("spec", JString (spec r));
      ("pass", JBool (pass r));
      ("counts",
        JObject [ ("errors", JNumber (Z.of_nat (errors (counts r))));
                  ("warnings", JNumber (Z.of_nat (warnings (counts r))));
                  ("total", JNumber (Z.of_nat (total (counts r)))) ]);
      ("ruleBreakdown", JArray (map rule_group_json (ruleBreakdown r))) ].

Definition report_json (r : Report) : json :=
  JObject
    [ ("allPass", JBool (allPass r));
      ("results", JArray (map file_report_json (results r))) ].

(** ** Linter Invoker *)

(** What [execFileSync] observes of the linter: it could not be started
    (the error then carries no output), or it ran and left an exit status
    and the text of its standard output. *)
Inductive run_result : Type :=
| SpawnFailed
| Exited (status : Z) (output : string).

(** The surroundings of one run of the script.  [JSON_parse] is
    [JSON.parse] read at the type of the linter's output, an array of
    finding records; it is [None] where [JSON.parse] throws.  The two laws
    are facts of the JSON grammar.  [resolve] is [path.resolve], [tree] is
    what lies at [REPO_ROOT], and [spectral] is what running the linter on
    a path gives. *)
Record Host : Type := mkHost
  { JSON_parse : string -> option (list Finding);
    JSON_parse_empty_text : JSON_parse "" = None;
    JSON_parse_empty_array : JSON_parse "[]" = Some [];
    resolve : string -> string -> string;
    REPO_ROOT : string;
    tree : node;
    spectral : string -> run_result }.

(** [lintSpec]; [None] when it throws.  With status 0 [execFileSync]
    returns the output and [raw || "[]"] is parsed; a [SyntaxError] raised
    there reaches the same [catch], has no [stdout] and is thrown again.
    With another status [execFileSync] throws an error that carries the
    output: it is parsed when it is not empty, and every other path ends
    in [throw err]. *)
Definition lintSpec (h : Host) (specPath : string) : option (list Finding) :=
  match spectral h specPath with
  | Exited status raw =>
      if (status =? 0)%Z
      then JSON_parse h (if raw =? "" then "[]" else raw)
      else if raw =? "" then None else JSON_parse h raw
  | SpawnFailed => None
  end.

(** The parse of what the linter wrote to its standard output, if it
    wrote JSON at all. *)
Definition captured (h : Host) (specPath : string) : option (list Finding) :=
  match spectral h specPath with
  | Exited _ output => JSON_parse h output
  | SpawnFailed => None
  end.

(** ** Main *)

Inductive stderr_item : Type :=
| Diagnostic (text : string)     (* [console.error] *)
| UncaughtException.             (* the trace Node prints before it exits *)

(** What a run leaves behind.  Every element of [stdout] is one
    [console.log(JSON.stringify(report, null, 2))]. *)
Record Outcome : Type := mkOutcome
  { exit_code : Z; stdout : list Report; stderr : list stderr_item }.

Definition NO_SPECS_MESSAGE : string :=
  "No OpenAPI spec files found. Pass a path or name files *.openapi.yaml / openapi.yaml / openapi.json".

(** [Array.prototype.map] with a callback that may throw. *)
Fixpoint map_throwing {A B : Type} (f : A -> option B) (l : list A)
  : option (list B) :=
  match l with
  | [] => Some []
  | x :: l' =>
      match f x with
      | Some y =>
          match map_throwing f l' with
          | Some ys => Some (y :: ys)
          | None => None
          end
      | None => None
      end
  end.

(** The constant [specs]. *)
Definition specs (h : Host) (args : list string) : list string :=
  match args with
  | [] => findSpecs (REPO_ROOT h) (tree h) 3
  | _ => map (resolve h (REPO_ROOT h)) args
  end.

Definition report_one (h : Host) (specPath : string) : option FileReport :=
  match lintSpec h specPath with
  | Some violations => summarize specPath violations
  | None => None
  end.

(** The module body; [args] is [process.argv.slice(2)].  An exception
    that nothing catches ends the process with status 1. *)
Definition main (h : Host) (args : list string) : Outcome :=
  match specs h args with
  | [] =>
      {| exit_code := 0; stdout := [];
         stderr := [Diagnostic NO_SPECS_MESSAGE] |}
  | _ =>
      match map_throwing (report_one h) (specs h args) with
      | Some results =>
          let allPass := forallb pass results in
          {| exit_code := if allPass then 0 else 1;
             stdout := [ {| allPass := allPass; results := results |} ];
             stderr := [] |}
      | None =>
          {| exit_code := 1; stdout := []; stderr := [UncaughtException] |}
      end
  end.

(** ** The first revision

    The file also holds the script as it was first written.  Grouping,
    sorting and truncation are the same; it differs where it calls
    [statSync] unguarded, swallows the linter's failures, labels the
    severities, and leaves when there is nothing to lint. *)
Module FirstRevision.

(** Every failure ends in [return []]: a [SyntaxError] on the success
    path is caught and carries no [stdout]. *)
Definition lintSpec (h : Host) (specPath : string) : list Finding :=
  match spectral h specPath with
  | Exited status raw =>
      if (status =? 0)%Z
      then match JSON_parse h (if raw =? "" then "[]" else raw) with
           | Some violations => violations
           | None => []
           end
      else if raw =? "" then []
           else match JSON_parse h raw with
                | Some violations => violations
                | None => []
                end
  | SpawnFailed => []
  end.

(** [data.severity === 0 ? "error" : "warning"]. *)
Definition severity_label (s : Z) : string :=
  if (s =? 0)%Z then "error" else "warning".

(** The outcome of [main] when [specs] is empty: [process.exit(1)]. *)
Definition no_specs : Outcome :=
  {| exit_code := 1; stdout := [];
     stderr := [Diagnostic
       "No OpenAPI spec files found. Pass a path or name files *.openapi.yaml"] |}.

(** [processEntry] with [statSync] outside any [try]: [None] when it
    throws. *)
Definition processEntry (descend : string -> node -> list string)
    (dir entry : string) (child : node) : option (list string) :=
  if startsWith entry "." || (entry =? "node_modules") then Some []
  else
    let full := join dir entry in
    match child with
    | Unreachable => None
    | File => Some (if isSpecFile entry then [full] else [])
    | Directory _ => Some (descend full child)
    | Special => Some []
    end.

(** [findSpecs]: an exception raised for one entry leaves the [flatMap]
    and is caught around it, so the directory yields nothing. *)
Fixpoint findSpecs (dir : string) (here : node) (depth : nat) : list string :=
  match depth with
  | 0 => []
  | S depth' =>
      match readdirSync here with
      | Some entries =>
          match map_throwing
                  (fun e => processEntry
                              (fun full child => findSpecs full child depth')
                              dir (fst e) (snd e))
                  entries with
          | Some found => List.concat found
          | None => []
          end
      | None => []
      end
  end.

End FirstRevision.

(** ** Notions used by the statements *)

(** The findings of one rule, in the order of the linter's output. *)
Definition findings_of (rule : string) (violations : list Finding)
  : list Finding :=
  filter (fun v => code v =? rule) violations.

(** Position of the first finding of a rule (the length of the list when
    there is none). *)
Fixpoint first_pos (rule : string) (violations : list Finding) : nat :=
  match violations with
  | [] => 0
  | v :: rest => if code v =? rule then 0 else S (first_pos rule rest)
  end.

(** Severity of the first finding of a rule. *)
Definition first_severity (rule : string) (violations : list Finding) : Z :=
  match findings_of rule violations with
  | v :: _ => severity v
  | [] => 0
  end.

(** The order in which [Object.entries] lists two different keys of the
    grouping object. *)
Definition key_precedes (violations : list Finding) (k1 k2 : string) : Prop :=
  match array_index k1, array_index k2 with
  | Some n1, Some n2 => (n1 < n2)%N
  | Some _, None => True
  | None, Some _ => False
  | None, None => first_pos k1 violations < first_pos k2 violations
  end.

(** [x] occurs in [l] before an occurrence of [y]. *)
Inductive precedes {A : Type} (x y : A) : list A -> Prop :=
| precedes_here (l : list A) : In y l -> precedes x y (x :: l)
| precedes_later (z : A) (l : list A) : precedes x y l -> precedes x y (z :: l).

(** The keys of a list in the order they first occur. *)
Definition note_key (seen : list string) (key : string) : list string :=
  if existsb (String.eqb key) seen then seen else (seen ++ [key])%list.

Definition first_seen (keys : list string) : list string :=
  fold_left note_key keys [].

(** What the grouping loop holds for a rule once the list is read. *)
Definition group_of (rule : string) (violations : list Finding) : Group.t :=
  {| Group.count := List.length (findings_of rule violations);
     Group.severity := first_severity rule violations;
     Group.locations := map location_of (findings_of rule violations) |}.

Definition groups_of (violations : list Finding) : JsObject.t Group.t :=
  map (fun k => (k, group_of k violations)) (first_seen (map code violations)).

Definition sum_counts (groups : list RuleGroup.t) : nat :=
  list_sum (map RuleGroup.count groups).

(** The entries of the grouping object as [sort] leaves them. *)
Definition sorted_groups (violations : list Finding) : list (string * Group.t) :=
  sort compare_groups (JsObject.entries (groups_of violations)).

(** The example of a file with three errors of one rule and one warning
    of another, and the report expected for it. *)
Definition sample : list Finding :=
  [ mkFinding "operation-operationId" "no operationId" 0
      [Key "paths"; Key "/quotes"; Key "get"] (LineNumber 11);
    mkFinding "operation-tags" "no tags" 1
      [Key "paths"; Key "/quotes"; Key "get"] (LineNumber 11);
    mkFinding "operation-operationId" "no operationId" 0
      [Key "paths"; Key "/quotes"; Key "post"] (LineNumber 30);
    mkFinding "operation-operationId" "no operationId" 0
      [Key "paths"; Key "/quotes/{id}"; Key "parameters"; Index 0] LineMissing ].

Definition sample_report : FileReport :=
  {| spec := "/repo/openapi.yaml";
     pass := false;
     counts := {| errors := 3; warnings := 1; total := 4 |};
     ruleBreakdown :=
       [ {| RuleGroup.rule := "operation-operationId";
            RuleGroup.severity := "error";
            RuleGroup.count := 3;
            RuleGroup.locations :=
              [ mkLocation "paths./quotes.get" (Some 12%Z) "no operationId";
                mkLocation "paths./quotes.post" (Some 31%Z) "no operationId";
                mkLocation "paths./quotes/{id}.parameters.0" None "no operationId" ];
            RuleGroup.truncated := None |};
         {| RuleGroup.rule := "operation-tags";
            RuleGroup.severity := "warning";
            RuleGroup.count := 1;
            RuleGroup.locations :=
              [ mkLocation "paths./quotes.get" (Some 12%Z) "no tags" ];
            RuleGroup.truncated := None |} ] |}.

(** Two warnings whose rules are named by numbers, the larger one
    first. *)
Definition numbered_rules : list Finding :=
  [ mkFinding "2" "second rule" 1 [Key "info"] (LineNumber 1);
    mkFinding "1" "first rule" 1 [Key "info"] (LineNumber 1) ].

(** The tie rule as the specification words it: two groups of the same
    severity and count stand in the order their rules first occur. *)
Definition ties_in_first_seen_order (violations : list Finding)
    (groups : list RuleGroup.t) : Prop :=
  forall g1 g2, precedes g1 g2 groups ->
    RuleGroup.severity g1 = RuleGroup.severity g2 ->
    RuleGroup.count g1 = RuleGroup.count g2 ->
    first_pos (RuleGroup.rule g1) violations
    < first_pos (RuleGroup.rule g2) violations.

(** Seven errors of one rule. *)
Definition seven_errors : list Finding :=
  repeat (mkFinding "oas3-schema" "schema is invalid" 0 [Key "components"] LineOther) 7.

(** A host whose linter exits with status 0 and prints nothing, in an
    otherwise empty repository.  Its parser knows the empty array only,
    which is all the runs below need. *)
Definition silent_host : Host :=
  {| JSON_parse := fun text => if text =? "[]" then Some [] else None;
     JSON_parse_empty_text := eq_refl;
     JSON_parse_empty_array := eq_refl;
     resolve := fun root p => join root p;
     REPO_ROOT := "/repo";
     tree := Directory (Some []);
     spectral := fun _ => Exited 0 "" |}.

(** A repository holding one document, on which the linter exits with
    status 0 and prints the empty array. *)
Definition clean_host : Host :=
  {| JSON_parse := fun text => if text =? "[]" then Some [] else None;
     JSON_parse_empty_text := eq_refl;
     JSON_parse_empty_array := eq_refl;
     resolve := fun root p => join root p;
     REPO_ROOT := "/repo";
     tree := Directory (Some [("README.md", File); ("openapi.yaml", File)]);
     spectral := fun _ => Exited 0 "[]" |}.

(** The text of a JSON string literal without escapes. *)
Definition quoted (s : string) : string :=
  String "034"%char s ++ String "034"%char "".

(** What the linter prints for a document with one broken schema, and
    the finding it stands for. *)
Definition broken_schema_output : string :=
  "[{" ++ quoted "code" ++ ":" ++ quoted "oas3-schema" ++ ","
  ++ quoted "path" ++ ":[" ++ quoted "components" ++ "," ++ quoted "schemas" ++ "],"
  ++ quoted "message" ++ ":" ++ quoted "schema is invalid" ++ ","
  ++ quoted "severity" ++ ":0,"
  ++ quoted "range" ++ ":{" ++ quoted "start" ++ ":{" ++ quoted "line" ++ ":41}}}]".

Definition broken_schema : Finding :=
  mkFinding "oas3-schema" "schema is invalid" 0
    [Key "components"; Key "schemas"] (LineNumber 41).

(** A repository with two documents to find, next to a hidden directory
    and a dependency cache that hold documents too.  The linter exits
    with status 1 on the first document and is content with the other.
    The parser is [JSON.parse] on the two texts the linter prints. *)
Definition mixed_host : Host :=
  {| JSON_parse := fun text =>
       if text =? "[]" then Some []
       else if text =? broken_schema_output then Some [broken_schema]
       else None;
     JSON_parse_empty_text := eq_refl;
     JSON_parse_empty_array := eq_refl;
     resolve := fun root p => join root p;
     REPO_ROOT := "/repo";
     tree :=
       Directory (Some
         [ (".git", Directory (Some [("openapi.yaml", File)]));
           ("node_modules", Directory (Some [("openapi.json", File)]));
           ("api", Directory (Some [("quotes.openapi.yml", File); ("notes.txt", File)]));
           ("openapi.yaml", File) ]);
     spectral := fun specPath =>
       if specPath =? "/repo/api/quotes.openapi.yml"
       then Exited 1 broken_schema_output
       else Exited 0 "[]" |}.

Definition mixed_report : Report :=
  {| allPass := false;
     results :=
       [ {| spec := "/repo/api/quotes.openapi.yml";
            pass := false;
            counts := {| errors := 1; warnings := 0; total := 1 |};
            ruleBreakdown :=
              [ {| RuleGroup.rule := "oas3-schema";
                   RuleGroup.severity := "error";
                   RuleGroup.count := 1;
                   RuleGroup.locations :=
                     [ mkLocation "components.schemas" (Some 42%Z) "schema is invalid" ];
                   RuleGroup.truncated := None |} ] |};
         {| spec := "/repo/openapi.yaml";
            pass := true;
            counts := {| errors := 0; warnings := 0; total := 0 |};
            ruleBreakdown := [] |} ] |}.

(** The repository of [clean_host] on a machine where the linter is not
    installed. *)
Definition bare_host : Host :=
  {| JSON_parse := JSON_parse clean_host;
     JSON_parse_empty_text := eq_refl;
     JSON_parse_empty_array := eq_refl;
     resolve := resolve clean_host;
     REPO_ROOT := REPO_ROOT clean_host;
     tree := tree clean_host;
     spectral := fun _ => SpawnFailed |}.

(** ** Notions used by the further properties *)

(** The traversal does not skip an entry of this name. *)
Definition visible (name : string) : Prop :=
  startsWith name "." = false /\ name <> "node_modules".

(** [located here names]: following the entry names [names] down from
    the directory [here], through readable directories, ends at a
    regular file. *)
Inductive located : node -> list string -> Prop :=
| located_file (entries : list (string * node)) (name : string) :
    In (name, File) entries ->
    located (Directory (Some entries)) [name]
| located_below (entries : list (string * node)) (name : string)
    (child : node) (rest : list string) :
    In (name, child) entries -> located child rest ->
    located (Directory (Some entries)) (name :: rest).

(** The path [join] builds along a chain of entry names. *)
Definition path_below (dir : string) (names : list string) : string :=
  fold_left join names dir.

(** An entry the traversal gets nothing from: [statSync] throws, it is
    neither a file nor a directory, or it is a directory that cannot be
    read. *)
Definition barren (n : node) : Prop :=
  n = Unreachable \/ n = Special \/ n = Directory None.


(** Every finding has the severity of the first finding of its rule. *)
Definition one_severity_per_rule (violations : list Finding) : Prop :=
  forall v, In v violations ->
    severity v = first_severity (code v) violations.

(** A rule met first as a warning and then as an error. *)
Definition mixed_severities : list Finding :=
  [ mkFinding "operation-tags" "no tags" 1 [Key "paths"] (LineNumber 3);
    mkFinding "operation-tags" "no tags" 0 [Key "paths"] (LineNumber 8) ].

(** The tree of [mixed_host] with a dangling link beside the documents of
    [api]. *)
Definition dangling_tree : node :=
  Directory (Some
    [ ("api", Directory (Some [("quotes.openapi.yml", File); ("latest", Unreachable)]));
      ("openapi.yaml", File) ]).

(** ** Facts about the patterns *)

Lemma match_here_dollar (p : list Regex.atom) (s : string) :
  Regex.match_here p true s = true <-> In s (Regex.expand p).
Proof.
  revert s; induction p as [|a p IH]; intros s; simpl.
  - destruct s; split; intros H; try discriminate; auto.
    + destruct H as [H|[]]; discriminate.
  - destruct a as [c|c].
    + rewrite in_map_iff. destruct s as [|c' s'].
      * split; [discriminate | intros (x & Hx & _); discriminate].
      * rewrite andb_true_iff, Ascii.eqb_eq, IH. split.
        -- intros [-> H]. now exists s'.
        -- intros (x & Hx & H). now inversion Hx; subst.
    + rewrite orb_true_iff, in_app_iff, in_map_iff, IH.
      destruct s as [|c' s'].
      * split; intros [H|H]; auto; try discriminate.
        destruct H as (x & Hx & _); discriminate.
      * rewrite andb_true_iff, Ascii.eqb_eq, IH. split.
        -- intros [[-> H]|H]; [left; now exists s' | now right].
        -- intros [(x & Hx & H)|H]; [left; now inversion Hx; subst | now right].
Qed.

Lemma search_dollar (p : list Regex.atom) (s : string) :
  Regex.search p true s = true <-> exists suf, In suf (Regex.expand p) /\ ends_with suf s.
Proof.
  induction s as [|c s IH]; simpl; rewrite orb_true_iff, match_here_dollar.
  - split.
    + intros [H|H]; [|discriminate]. exists EmptyString. split; auto. now exists EmptyString.
    + intros (suf & Hin & pre & Hpre). left.
      destruct pre; simpl in Hpre; [now subst | discriminate].
  - rewrite IH. split.
    + intros [H|(suf & Hin & pre & ->)].
      * exists (String c s). split; auto. now exists EmptyString.
      * exists suf. split; auto. now exists (String c pre).
    + intros (suf & Hin & pre & Hpre). destruct pre as [|c' pre]; simpl in Hpre.
      * left. now subst.
      * right. inversion Hpre; subst. exists suf. split; auto. now exists pre.
Qed.

Lemma isSpecFile_spec_name (name : string) :
  isSpecFile name = true <-> spec_name name.
Proof.
  unfold isSpecFile, SPEC_PATTERNS, spec_name.
  cbn [existsb Regex.test Regex.anchor_start Regex.atoms Regex.anchor_end].
  rewrite !orb_true_iff, !search_dollar, !match_here_dollar.
  cbn [Regex.expand Regex.lits app map In].
  split.
  - intros H.
    repeat match goal with
           | H : _ \/ _ |- _ => destruct H
           | H : exists _, _ |- _ => destruct H
           | H : _ /\ _ |- _ => destruct H
           | H : False |- _ => destruct H
           end; subst; try discriminate; tauto.
  - intros [H|[H|[H|[H|[H|H]]]]]; subst.
    + left. eexists; split; [left; reflexivity | exact H].
    + left. eexists; split; [right; left; reflexivity | exact H].
    + right; left. eexists; split; [left; reflexivity | exact H].
    + tauto.
    + tauto.
    + tauto.
Qed.

Lemma length_append (s1 s2 : string) :
  String.length (s1 ++ s2) = String.length s1 + String.length s2.
Proof. induction s1 as [|c s1 IH]; simpl; congruence. Qed.

Lemma ends_with_length (suf s : string) :
  ends_with suf s -> String.length suf <= String.length s.
Proof. intros (pre & ->). rewrite length_append. lia. Qed.

Lemma listed_spec_name_no_yml : ~ listed_spec_name "openapi.yml".
Proof.
  intros [H|[H|[H|H]]]; try discriminate;
    apply ends_with_length in H; simpl in H; lia.
Qed.

(** ** Order of occurrence in a list *)

Lemma precedes_split {A : Type} (x y : A) (l1 l2 l3 : list A) :
  precedes x y (l1 ++ x :: l2 ++ y :: l3).
Proof.
  induction l1 as [|z l1 IH]; simpl.
  - apply precedes_here. apply in_or_app. right. now left.
  - now apply precedes_later.
Qed.

Lemma precedes_In {A : Type} (x y : A) (l : list A) :
  precedes x y l -> In x l /\ In y l.
Proof.
  induction 1 as [l H|z l H [IH1 IH2]]; simpl; auto.
Qed.

Lemma precedes_app {A : Type} (x y : A) (l1 l2 : list A) :
  precedes x y (l1 ++ l2) ->
  precedes x y l1 \/ (In x l1 /\ In y l2) \/ precedes x y l2.
Proof.
  induction l1 as [|z l1 IH]; simpl; intros H.
  - auto.
  - inversion H as [l Hy|z' l Hp]; subst.
    + apply in_app_or in Hy. destruct Hy as [Hy|Hy].
      * left. now apply precedes_here.
      * right; left. auto.
    + destruct (IH Hp) as [H1|[[H1 H2]|H1]].
      * left. now apply precedes_later.
      * right; left. auto.
      * auto.
Qed.

Lemma precedes_map {A B : Type} (f : A -> B) (u v : B) (l : list A) :
  precedes u v (map f l) ->
  exists x y, precedes x y l /\ f x = u /\ f y = v.
Proof.
  induction l as [|z l IH]; simpl; intros H; inversion H as [l' Hy|z' l' Hp]; subst.
  - apply in_map_iff in Hy. destruct Hy as (y & Hy & Hin).
    exists z, y. split; [now apply precedes_here | auto].
  - destruct (IH Hp) as (x & y & Hxy & Hx & Hy).
    exists x, y. split; [now apply precedes_later | auto].
Qed.

Lemma precedes_filter {A : Type} (f : A -> bool) (x y : A) (l : list A) :
  precedes x y (filter f l) -> precedes x y l.
Proof.
  induction l as [|z l IH]; simpl; intros H.
  - inversion H.
  - destruct (f z) eqn:Hz.
    + inversion H as [l' Hy|z' l' Hp]; subst.
      * apply precedes_here. now apply filter_In in Hy.
      * apply precedes_later. auto.
    + apply precedes_later. auto.
Qed.

Lemma precedes_NoDup {A B : Type} (f : A -> B) (x y : A) (l : list A) :
  NoDup (map f l) -> precedes x y l -> f x <> f y.
Proof.
  induction l as [|z l IH]; simpl; intros Hnd H; inversion H as [l' Hy|z' l' Hp]; subst.
  - inversion Hnd as [|? ? Hnotin _]; subst. intros Heq. apply Hnotin.
    rewrite Heq. now apply in_map.
  - inversion Hnd; subst. auto.
Qed.

(** ** The sort *)

Section SortFacts.
Context {A : Type} (cmp : A -> A -> Z).
Hypothesis cmp_total : forall a b, (0 < cmp a b)%Z -> (cmp b a <= 0)%Z.
Hypothesis cmp_trans :
  forall a b c, (cmp a b <= 0)%Z -> (cmp b c <= 0)%Z -> (cmp a c <= 0)%Z.

Lemma insert_perm (x : A) (l : list A) : Permutation (x :: l) (insert cmp x l).
Proof.
  induction l as [|y l IH]; simpl; auto.
  destruct (cmp x y <=? 0)%Z; auto.
  rewrite perm_swap. now apply perm_skip.
Qed.

Lemma sort_perm (l : list A) : Permutation l (sort cmp l).
Proof.
  induction l as [|x l IH]; simpl; auto.
  rewrite <- insert_perm. now apply perm_skip.
Qed.

Lemma insert_sorted (x : A) (l : list A) :
  StronglySorted (fun a b => (cmp a b <= 0)%Z) l ->
  StronglySorted (fun a b => (cmp a b <= 0)%Z) (insert cmp x l).
Proof.
  induction 1 as [|y l Hs IH Hy]; simpl.
  - repeat constructor.
  - destruct (cmp x y <=? 0)%Z eqn:Hc.
    + apply Z.leb_le in Hc. constructor.
      * now constructor.
      * constructor; auto.
        rewrite Forall_forall in *. intros z Hz. eapply cmp_trans; eauto.
    + apply Z.leb_gt in Hc. constructor; auto.
      rewrite Forall_forall in *. intros z Hz.
      apply (Permutation_in _ (Permutation_sym (insert_perm x l))) in Hz.
      destruct Hz as [<-|Hz]; auto.
Qed.

Lemma sort_sorted (l : list A) :
  StronglySorted (fun a b => (cmp a b <= 0)%Z) (sort cmp l).
Proof.
  induction l as [|x l IH]; simpl; [constructor | now apply insert_sorted].
Qed.

Lemma sorted_precedes (R : A -> A -> Prop) (x y : A) (l : list A) :
  StronglySorted R l -> precedes x y l -> R x y.
Proof.
  induction 1 as [|z l Hs IH Hz]; intros H; inversion H; subst; auto.
  rewrite Forall_forall in Hz. auto.
Qed.

Lemma sort_ordered (x y : A) (l : list A) :
  precedes x y (sort cmp l) -> (cmp x y <= 0)%Z.
Proof.
  apply (sorted_precedes (fun a b => (cmp a b <= 0)%Z)), sort_sorted.
Qed.

Lemma precedes_insert (a x y : A) (l : list A) :
  precedes x y (insert cmp a l) ->
  (x = a /\ In y l) \/ (y = a /\ In x l /\ (0 < cmp a x)%Z) \/ precedes x y l.
Proof.
  induction l as [|z l IH]; simpl; intros H.
  - inversion H as [l' Hy|z' l' Hp]; subst; [destruct Hy | inversion Hp].
  - destruct (cmp a z <=? 0)%Z eqn:Hc.
    + inversion H as [l' Hy|z' l' Hp]; subst; auto.
    + apply Z.leb_gt in Hc.
      inversion H as [l' Hy|z' l' Hp]; subst.
      * apply (Permutation_in _ (Permutation_sym (insert_perm a l))) in Hy.
        destruct Hy as [<-|Hy].
        -- right; left. simpl; auto.
        -- right; right. now apply precedes_here.
      * destruct (IH Hp) as [[-> Hy]|[(-> & Hx & Hax)|Hxy]].
        -- left. simpl; auto.
        -- right; left. simpl; auto.
        -- right; right. now apply precedes_later.
Qed.

(** Stability: two elements the comparator does not tell apart keep
    their order. *)
Lemma sort_stable (x y : A) (l : list A) :
  precedes x y (sort cmp l) -> (cmp y x <= 0)%Z -> precedes x y l.
Proof.
  induction l as [|a l IH]; simpl; intros H Hyx.
  - inversion H.
  - destruct (precedes_insert _ _ _ _ H) as [[-> Hy]|[(-> & Hx & Hax)|Hxy]].
    + apply precedes_here.
      apply (Permutation_in _ (Permutation_sym (sort_perm l))). exact Hy.
    + lia.
    + apply precedes_later. auto.
Qed.
End SortFacts.

(** ** The grouping loop *)

Lemma existsb_eqb_In (k : string) (l : list string) :
  existsb (String.eqb k) l = true <-> In k l.
Proof.
  rewrite existsb_exists. split.
  - intros (x & Hin & Heq). apply String.eqb_eq in Heq. now subst.
  - intros Hin. exists k. split; auto. apply String.eqb_refl.
Qed.

Lemma existsb_eqb_not_In (k : string) (l : list string) :
  existsb (String.eqb k) l = false <-> ~ In k l.
Proof.
  rewrite <- existsb_eqb_In. destruct (existsb _ l); split; congruence.
Qed.

Lemma first_seen_snoc (l : list string) (k : string) :
  first_seen (l ++ [k]) = note_key (first_seen l) k.
Proof. unfold first_seen. now rewrite fold_left_app. Qed.

Lemma first_seen_In (k : string) (l : list string) :
  In k (first_seen l) <-> In k l.
Proof.
  induction l as [|x l IH] using rev_ind.
  - reflexivity.
  - rewrite first_seen_snoc, in_app_iff. unfold note_key.
    destruct (existsb (String.eqb x) (first_seen l)) eqn:Hx.
    + apply existsb_eqb_In in Hx. rewrite IH. simpl. split; auto.
      intros [H|[<-|[]]]; auto. now apply IH.
    + rewrite in_app_iff, IH. reflexivity.
Qed.

Lemma first_seen_NoDup (l : list string) : NoDup (first_seen l).
Proof.
  induction l as [|x l IH] using rev_ind.
  - constructor.
  - rewrite first_seen_snoc. unfold note_key.
    destruct (existsb (String.eqb x) (first_seen l)) eqn:Hx; auto.
    apply existsb_eqb_not_In in Hx.
    apply NoDup_rev in IH. rewrite <- (rev_involutive (_ ++ _)), rev_app_distr.
    apply NoDup_rev. simpl. constructor; auto. now rewrite <- in_rev.
Qed.

Lemma findings_of_snoc (k : string) (pre : list Finding) (v : Finding) :
  findings_of k (pre ++ [v])
  = (findings_of k pre ++ if code v =? k then [v] else [])%list.
Proof.
  unfold findings_of. rewrite filter_app. simpl.
  now destruct (code v =? k).
Qed.

Lemma findings_of_nil (k : string) (vs : list Finding) :
  ~ In k (map code vs) -> findings_of k vs = [].
Proof.
  induction vs as [|v vs IH]; simpl; intros H; auto.
  destruct (code v =? k) eqn:E.
  - apply String.eqb_eq in E. tauto.
  - tauto.
Qed.

Lemma findings_of_cons (k : string) (vs : list Finding) :
  In k (map code vs) -> exists v rest, findings_of k vs = v :: rest.
Proof.
  induction vs as [|v vs IH]; simpl; intros H; [destruct H|].
  destruct (code v =? k) eqn:E.
  - eauto.
  - destruct H as [H|H]; auto. apply String.eqb_neq in E. tauto.
Qed.

Lemma group_of_snoc_other (k : string) (pre : list Finding) (v : Finding) :
  code v <> k -> group_of k (pre ++ [v]) = group_of k pre.
Proof.
  intros H. apply String.eqb_neq in H.
  unfold group_of, first_severity. rewrite findings_of_snoc, H, app_nil_r.
  reflexivity.
Qed.

Lemma group_of_snoc_seen (pre : list Finding) (v : Finding) :
  In (code v) (map code pre) ->
  group_of (code v) (pre ++ [v]) = record_finding v (group_of (code v) pre).
Proof.
  intros H. destruct (findings_of_cons _ _ H) as (v0 & rest & E).
  unfold group_of, first_severity, record_finding.
  rewrite findings_of_snoc, String.eqb_refl, E. simpl.
  rewrite length_app, map_app. simpl. f_equal. lia.
Qed.

Lemma group_of_snoc_new (pre : list Finding) (v : Finding) :
  ~ In (code v) (map code pre) ->
  group_of (code v) (pre ++ [v])
  = record_finding v {| Group.count := 0; Group.severity := severity v;
                        Group.locations := [] |}.
Proof.
  intros H. unfold group_of, first_severity, record_finding.
  rewrite findings_of_snoc, String.eqb_refl, (findings_of_nil _ _ H).
  reflexivity.
Qed.

Lemma find_keyed {V : Type} (G : string -> V) (k : string) (keys : list string) :
  find (JsObject.is_key k) (map (fun x => (x, G x)) keys)
  = if existsb (String.eqb k) keys then Some (k, G k) else None.
Proof.
  induction keys as [|x keys IH]; simpl; auto.
  unfold JsObject.is_key at 1. simpl. rewrite String.eqb_sym.
  destruct (k =? x) eqn:E; simpl; auto.
  apply String.eqb_eq in E. now subst.
Qed.

Lemma update_keyed {V : Type} (G : string -> V) (f : V -> V) (k : string)
    (keys : list string) :
  JsObject.update (map (fun x => (x, G x)) keys) k f
  = map (fun x => (x, if x =? k then f (G x) else G x)) keys.
Proof.
  unfold JsObject.update, JsObject.is_key. rewrite map_map.
  apply map_ext. intros x. simpl. now destruct (x =? k).
Qed.

Lemma shadowed_seen (pre : list Finding) (v : Finding) :
  existsb shadowed pre = false -> In (code v) (map code pre) -> shadowed v = false.
Proof.
  intros Hpre Hin. apply in_map_iff in Hin. destruct Hin as (u & Hu & Hin).
  destruct (shadowed v) eqn:E; auto.
  assert (existsb shadowed pre = true); [|congruence].
  apply existsb_exists. exists u. split; auto.
  unfold shadowed in *. now rewrite Hu.
Qed.

Lemma group_by_rule_snoc (pre : list Finding) (v : Finding) :
  group_by_rule (pre ++ [v])
  = match group_by_rule pre with
    | Some byRule => group_step byRule v
    | None => None
    end.
Proof. unfold group_by_rule. now rewrite fold_left_app. Qed.

Lemma groups_of_snoc (pre : list Finding) (v : Finding) :
  groups_of (pre ++ [v])
  = map (fun k => (k, group_of k (pre ++ [v])))
      (note_key (first_seen (map code pre)) (code v)).
Proof.
  unfold groups_of. rewrite (map_app code). simpl (map code [v]).
  now rewrite first_seen_snoc.
Qed.

Lemma group_step_groups_of (pre : list Finding) (v : Finding) :
  existsb shadowed pre = false ->
  group_step (groups_of pre) v
  = if shadowed v then None else Some (groups_of (pre ++ [v])).
Proof.
  intros Hpre. rewrite groups_of_snoc.
  unfold group_step, JsObject.get, groups_of.
  rewrite find_keyed. unfold note_key.
  destruct (existsb (String.eqb (code v)) (first_seen (map code pre))) eqn:Hseen.
  - apply existsb_eqb_In in Hseen. rewrite first_seen_In in Hseen.
    rewrite (shadowed_seen _ _ Hpre Hseen). simpl.
    rewrite update_keyed. f_equal. apply map_ext. intros k.
    destruct (k =? code v) eqn:E.
    + apply String.eqb_eq in E. subst k. now rewrite group_of_snoc_seen.
    + apply String.eqb_neq in E. rewrite group_of_snoc_other; auto.
  - apply existsb_eqb_not_In in Hseen.
    fold (shadowed v). destruct (shadowed v); auto.
    f_equal. unfold JsObject.define, JsObject.update, JsObject.is_key.
    rewrite !map_app, map_map. simpl. rewrite String.eqb_refl. simpl.
    rewrite group_of_snoc_new by now rewrite <- first_seen_In.
    f_equal. apply map_ext_in. intros k Hk. simpl.
    destruct (k =? code v) eqn:E.
    + apply String.eqb_eq in E. subst k. tauto.
    + apply String.eqb_neq in E. rewrite group_of_snoc_other; auto.
Qed.

(** The loop throws exactly when some rule is named like a property of
    [Object.prototype]; otherwise it holds one group per rule, in the
    order the rules first occur. *)
Lemma group_by_rule_groups_of (vs : list Finding) :
  group_by_rule vs = if existsb shadowed vs then None else Some (groups_of vs).
Proof.
  induction vs as [|v pre IH] using rev_ind.
  - reflexivity.
  - rewrite group_by_rule_snoc, IH, existsb_app. simpl. rewrite orb_false_r.
    destruct (existsb shadowed pre) eqn:Hpre; simpl; auto.
    now apply group_step_groups_of.
Qed.

(** ** Key order of the grouping object *)

Lemma array_index_decimal (k : string) (n : N) :
  array_index k = Some n -> decimal n = k.
Proof.
  unfold array_index. destruct (NilEmpty.uint_of_string k) as [d|]; [|discriminate].
  simpl. destruct (decimal (N.of_uint d) =? k) eqn:E; simpl; [|discriminate].
  destruct (N.of_uint d <? 4294967295)%N; [|discriminate].
  intros [= <-]. now apply String.eqb_eq.
Qed.

Lemma first_pos_snoc_seen (k : string) (pre : list Finding) (v : Finding) :
  In k (map code pre) -> first_pos k (pre ++ [v]) = first_pos k pre.
Proof.
  induction pre as [|u pre IH]; simpl; intros H; [destruct H|].
  destruct (code u =? k) eqn:E; auto.
  apply String.eqb_neq in E. destruct H as [H|H]; [tauto | now rewrite IH].
Qed.

Lemma first_pos_snoc_new (pre : list Finding) (v : Finding) :
  ~ In (code v) (map code pre) -> first_pos (code v) (pre ++ [v]) = List.length pre.
Proof.
  induction pre as [|u pre IH]; simpl; intros H.
  - now rewrite String.eqb_refl.
  - destruct (code u =? code v) eqn:E.
    + apply String.eqb_eq in E. tauto.
    + rewrite IH; auto.
Qed.

Lemma first_pos_lt (k : string) (vs : list Finding) :
  In k (map code vs) -> first_pos k vs < List.length vs.
Proof.
  induction vs as [|u vs IH]; simpl; intros H; [destruct H|].
  destruct (code u =? k) eqn:E; [lia|].
  apply String.eqb_neq in E. destruct H as [H|H]; [tauto|].
  apply IH in H. lia.
Qed.

Lemma first_seen_order (k1 k2 : string) (vs : list Finding) :
  precedes k1 k2 (first_seen (map code vs)) -> first_pos k1 vs < first_pos k2 vs.
Proof.
  induction vs as [|v pre IH] using rev_ind; intros H.
  - inversion H.
  - rewrite (map_app code) in H. simpl in H. rewrite first_seen_snoc in H.
    unfold note_key in H.
    destruct (existsb (String.eqb (code v)) (first_seen (map code pre))) eqn:Hseen.
    + destruct (precedes_In _ _ _ H) as [H1 H2].
      rewrite first_seen_In in H1, H2.
      rewrite !first_pos_snoc_seen; auto.
    + apply existsb_eqb_not_In in Hseen. rewrite first_seen_In in Hseen.
      destruct (precedes_app _ _ _ _ H) as [Hp|[[H1 H2]|Hp]].
      * destruct (precedes_In _ _ _ Hp) as [H1 H2].
        rewrite first_seen_In in H1, H2.
        rewrite !first_pos_snoc_seen; auto.
      * destruct H2 as [<-|[]]. rewrite first_seen_In in H1.
        rewrite first_pos_snoc_seen, first_pos_snoc_new; auto.
        now apply first_pos_lt.
      * inversion Hp as [l Hy|z l Hq]; subst; [destruct Hy | inversion Hq].
Qed.

Lemma filter_keeps_distinct_keys {V : Type} (keep : string * V -> bool)
    (o : JsObject.t V) :
  NoDup (map fst o) -> NoDup (map fst (filter keep o)).
Proof.
  induction o as [|e o IH]; simpl; intros Hnd; auto.
  inversion Hnd as [|? ? Hfresh Hrest]; subst.
  destruct (keep e); simpl; auto.
  constructor; auto. intros Hin. apply Hfresh.
  apply in_map_iff in Hin. destruct Hin as (e' & He' & Hin).
  apply filter_In in Hin. apply in_map_iff. exists e'. tauto.
Qed.

Lemma entries_perm {V : Type} (o : JsObject.t V) :
  Permutation o (JsObject.entries o).
Proof.
  unfold JsObject.entries. rewrite <- sort_perm.
  induction o as [|p o IH]; simpl; auto.
  destruct (JsObject.is_index p); simpl.
  - now apply perm_skip.
  - now apply Permutation_cons_app.
Qed.

(** Two keys of an object come out of [Object.entries] with array indices
    first and ascending, then in creation order. *)
Lemma entries_order {V : Type} (o : JsObject.t V) (e1 e2 : string * V) :
  NoDup (map fst o) ->
  precedes e1 e2 (JsObject.entries o) ->
  match array_index (fst e1), array_index (fst e2) with
  | Some n1, Some n2 => (n1 < n2)%N
  | Some _, None => True
  | None, Some _ => False
  | None, None => precedes e1 e2 o
  end.
Proof.
  intros Hnd H. unfold JsObject.entries in H.
  set (by_index := fun a b : string * V =>
                     (JsObject.index_of a - JsObject.index_of b)%Z) in H.
  assert (Hidx : forall e, In e (sort by_index (filter JsObject.is_index o)) ->
                 exists n, array_index (fst e) = Some n /\ JsObject.index_of e = Z.of_N n).
  { intros e He. apply (Permutation_in _ (Permutation_sym (sort_perm _ _))) in He.
    apply filter_In in He. destruct He as [_ He].
    unfold JsObject.is_index, JsObject.index_of in *.
    destruct (array_index (fst e)) as [n|]; [eauto | discriminate]. }
  assert (Hnot : forall e, In e (filter (fun p => negb (JsObject.is_index p)) o) ->
                 array_index (fst e) = None).
  { intros e He. apply filter_In in He. destruct He as [_ He].
    unfold JsObject.is_index in He.
    destruct (array_index (fst e)); [discriminate | reflexivity]. }
  destruct (precedes_app _ _ _ _ H) as [Hp|[[H1 H2]|Hp]].
  - assert (Hne : fst e1 <> fst e2).
    { apply (precedes_NoDup fst e1 e2 (sort by_index (filter JsObject.is_index o))); auto.
      eapply Permutation_NoDup.
      - apply Permutation_map, sort_perm.
      - now apply filter_keeps_distinct_keys. }
    destruct (precedes_In _ _ _ Hp) as [H1 H2].
    destruct (Hidx _ H1) as (n1 & E1 & I1). destruct (Hidx _ H2) as (n2 & E2 & I2).
    rewrite E1, E2.
    assert (Hle : (by_index e1 e2 <= 0)%Z).
    { apply (sort_ordered by_index) with (l := filter JsObject.is_index o); auto;
        unfold by_index; intros; lia. }
    unfold by_index in Hle. rewrite I1, I2 in Hle.
    assert (n1 <> n2).
    { intros ->. apply Hne.
      now rewrite <- (array_index_decimal _ _ E1), <- (array_index_decimal _ _ E2). }
    lia.
  - destruct (Hidx _ H1) as (n1 & E1 & _). now rewrite E1, (Hnot _ H2).
  - destruct (precedes_In _ _ _ Hp) as [H1 H2].
    rewrite (Hnot _ H1), (Hnot _ H2). now apply precedes_filter in Hp.
Qed.

(** ** What [summarize] returns *)

Lemma compare_groups_total (a b : string * Group.t) :
  (0 < compare_groups a b)%Z -> (compare_groups b a <= 0)%Z.
Proof.
  unfold compare_groups.
  destruct (Z.eqb_spec (Group.severity (snd a) - Group.severity (snd b)) 0);
    destruct (Z.eqb_spec (Group.severity (snd b) - Group.severity (snd a)) 0); lia.
Qed.

Lemma compare_groups_trans (a b c : string * Group.t) :
  (compare_groups a b <= 0)%Z -> (compare_groups b c <= 0)%Z ->
  (compare_groups a c <= 0)%Z.
Proof.
  unfold compare_groups.
  destruct (Z.eqb_spec (Group.severity (snd a) - Group.severity (snd b)) 0);
    destruct (Z.eqb_spec (Group.severity (snd b) - Group.severity (snd c)) 0);
    destruct (Z.eqb_spec (Group.severity (snd a) - Group.severity (snd c)) 0); lia.
Qed.

Lemma summarize_inv (specPath : string) (vs : list Finding) (r : FileReport) :
  summarize specPath vs = Some r ->
  existsb shadowed vs = false /\
  r = {| spec := specPath;
         pass := (List.length (filter (fun v => (severity v =? 0)%Z) vs) =? 0)%nat;
         counts :=
           {| errors := List.length (filter (fun v => (severity v =? 0)%Z) vs);
              warnings := List.length (filter (fun v => (severity v =? 1)%Z) vs);
              total := List.length vs |};
         ruleBreakdown := map rule_group (sorted_groups vs) |}.
Proof.
  unfold summarize. rewrite group_by_rule_groups_of.
  destruct (existsb shadowed vs); [discriminate|].
  intros [= <-]. auto.
Qed.

(** [summarize] returns unless a rule is named like a property of
    [Object.prototype], and throws in that case. *)
Lemma summarize_returns (specPath : string) (vs : list Finding) :
  existsb shadowed vs = false <-> exists r, summarize specPath vs = Some r.
Proof.
  unfold summarize. rewrite group_by_rule_groups_of.
  destruct (existsb shadowed vs); split; eauto; try discriminate.
  intros (r & H). discriminate.
Qed.

Lemma sorted_groups_perm (vs : list Finding) :
  Permutation (groups_of vs) (sorted_groups vs).
Proof.
  unfold sorted_groups. rewrite <- sort_perm. apply entries_perm.
Qed.

Lemma groups_of_keys (vs : list Finding) :
  map fst (groups_of vs) = first_seen (map code vs).
Proof.
  unfold groups_of. rewrite map_map. simpl. apply map_id.
Qed.

Lemma sorted_groups_In (vs : list Finding) (e : string * Group.t) :
  In e (sorted_groups vs) ->
  In (fst e) (map code vs) /\ snd e = group_of (fst e) vs.
Proof.
  intros H. apply (Permutation_in _ (Permutation_sym (sorted_groups_perm vs))) in H.
  unfold groups_of in H. apply in_map_iff in H. destruct H as (k & <- & Hk).
  simpl. now rewrite first_seen_In in Hk.
Qed.

Lemma rule_breakdown_In (specPath : string) (vs : list Finding) (r : FileReport)
    (g : RuleGroup.t) :
  summarize specPath vs = Some r -> In g (ruleBreakdown r) ->
  In (RuleGroup.rule g) (map code vs) /\
  g = rule_group (RuleGroup.rule g, group_of (RuleGroup.rule g) vs).
Proof.
  intros Hs Hg. apply summarize_inv in Hs. destruct Hs as [_ ->]. simpl in Hg.
  apply in_map_iff in Hg. destruct Hg as ([k d] & <- & He).
  apply sorted_groups_In in He. simpl in *. destruct He as [Hk ->]. auto.
Qed.

Lemma rule_breakdown_rules (specPath : string) (vs : list Finding) (r : FileReport) :
  summarize specPath vs = Some r ->
  Permutation (first_seen (map code vs)) (map RuleGroup.rule (ruleBreakdown r)).
Proof.
  intros Hs. apply summarize_inv in Hs. destruct Hs as [_ ->]. simpl.
  rewrite map_map. simpl. rewrite <- groups_of_keys.
  change (fun x : string * Group.t => fst x) with (@fst string Group.t).
  apply Permutation_map, sorted_groups_perm.
Qed.

Lemma In_firstn {A : Type} (n : nat) (x : A) (l : list A) :
  In x (firstn n l) -> In x l.
Proof.
  revert l; induction n as [|n IH]; intros [|y l]; simpl; try tauto.
  intros [H|H]; auto.
Qed.

Lemma find_findings_of (k : string) (vs : list Finding) :
  find (fun v => code v =? k) vs = hd_error (findings_of k vs).
Proof.
  induction vs as [|v vs IH]; simpl; auto.
  now destruct (code v =? k).
Qed.

Lemma list_sum_indicator (c : string) (keys : list string) :
  NoDup keys ->
  list_sum (map (fun k => if c =? k then 1 else 0) keys)
  = if existsb (String.eqb c) keys then 1 else 0.
Proof.
  induction 1 as [|k keys Hk Hnd IH]; simpl; auto.
  rewrite IH. destruct (c =? k) eqn:E; simpl; auto.
  apply String.eqb_eq in E. subst k.
  apply existsb_eqb_not_In in Hk. now rewrite Hk.
Qed.

Lemma list_sum_plus {A : Type} (f g : A -> nat) (l : list A) :
  list_sum (map (fun x => f x + g x) l) = list_sum (map f l) + list_sum (map g l).
Proof. induction l as [|x l IH]; simpl; lia. Qed.

Lemma sum_findings_of (keys : list string) (vs : list Finding) :
  NoDup keys -> (forall v, In v vs -> In (code v) keys) ->
  list_sum (map (fun k => List.length (findings_of k vs)) keys) = List.length vs.
Proof.
  intros Hnd. induction vs as [|v vs IH]; intros Hin.
  - clear. induction keys as [|k keys IH]; simpl; auto.
  - rewrite (map_ext _ (fun k => (if code v =? k then 1 else 0)
                                 + List.length (findings_of k vs))).
    + rewrite list_sum_plus, list_sum_indicator, IH; auto.
      * assert (H : In (code v) keys) by (apply Hin; now left).
        apply existsb_eqb_In in H. now rewrite H.
      * intros u Hu. apply Hin. now right.
    + intros k. unfold findings_of. simpl. now destruct (code v =? k).
Qed.

Lemma errors_warnings_le (vs : list Finding) :
  List.length (filter (fun v => (severity v =? 0)%Z) vs)
  + List.length (filter (fun v => (severity v =? 1)%Z) vs) <= List.length vs.
Proof.
  induction vs as [|v vs IH]; simpl; auto.
  destruct (Z.eqb_spec (severity v) 0) as [E|E].
  - rewrite E. simpl. lia.
  - destruct (severity v =? 1)%Z; simpl; lia.
Qed.

(** ** Runs of [summarize] and [main] *)

Example summarize_sample :
  summarize "/repo/openapi.yaml" sample = Some sample_report.
Proof. reflexivity. Qed.

Example summarize_seven_errors :
  option_map
    (fun r => (pass r, counts r,
               map (fun g => (RuleGroup.count g, List.length (RuleGroup.locations g),
                              RuleGroup.truncated g)) (ruleBreakdown r)))
    (summarize "/repo/openapi.yaml" seven_errors)
  = Some (false, {| errors := 7; warnings := 0; total := 7 |},
          [(7, 5, Some "2 more")]).
Proof. reflexivity. Qed.

Example summarize_rule_named_toString :
  summarize "/repo/openapi.yaml"
    [mkFinding "toString" "a rule of a custom ruleset" 1 [] LineMissing] = None.
Proof. reflexivity. Qed.

Example array_index_examples :
  map array_index ["0"; "7"; "42"; "4294967294"; "4294967295"; "007"; ""; "-1"; "x1"]
  = [Some 0%N; Some 7%N; Some 42%N; Some 4294967294%N; None; None; None; None; None].
Proof. reflexivity. Qed.

Example isSpecFile_examples :
  map isSpecFile
    ["openapi.yaml"; "openapi.yml"; "openapi.json"; "quotes.openapi.yaml";
     "quotes.openapi.yml"; "quotes.openapi.json"; "OpenAPI.yaml";
     "openapi.yaml.bak"; "myopenapi.yaml"; "package.json"]
  = [true; true; true; true; true; true; false; false; false; false].
Proof. reflexivity. Qed.

Example main_mixed_host :
  main mixed_host []
  = {| exit_code := 1; stdout := [mixed_report]; stderr := [] |}.
Proof. reflexivity. Qed.

Example main_clean_host :
  exit_code (main clean_host []) = 0%Z /\
  map allPass (stdout (main clean_host [])) = [true].
Proof. split; reflexivity. Qed.

Example main_bare_host :
  main bare_host []
  = {| exit_code := 1; stdout := []; stderr := [UncaughtException] |}.
Proof. reflexivity. Qed.

(** * The claims *)

(** ** Finding Aggregator *)

(** C4.  In every report [summarize] returns, each rule group lists the
    first five findings of its rule, in the order of the findings list,
    and so at most five; the group has a [truncated] property, reading
    the size of the group minus five followed by [" more"], exactly when
    the rule has more than five findings, and the property is missing
    from the JSON object otherwise. *)
Theorem locations_capped (specPath : string) (vs : list Finding) (r : FileReport) :
  summarize specPath vs = Some r ->
  forall g, In g (ruleBreakdown r) ->
    let size := List.length (findings_of (RuleGroup.rule g) vs) in
    let note := JString (decimal (N.of_nat (size - 5)) ++ " more") in
    List.length (RuleGroup.locations g) <= 5 /\
    RuleGroup.locations g
    = map location_of (firstn 5 (findings_of (RuleGroup.rule g) vs)) /\
    field "truncated" (rule_group_json g)
    = (if (5 <? size)%nat then Some note else None).
Proof.
  intros Hs g Hg size note.
  destruct (rule_breakdown_In _ _ _ _ Hs Hg) as [_ E].
  assert (Hsize : List.length (Group.locations (group_of (RuleGroup.rule g) vs)) = size).
  { simpl. now rewrite length_map. }
  rewrite E. unfold rule_group_json, rule_group. simpl fst. simpl snd.
  cbn [RuleGroup.rule RuleGroup.severity RuleGroup.count RuleGroup.locations
       RuleGroup.truncated].
  rewrite Hsize. cbn [group_of Group.locations].
  split; [|split].
  - rewrite length_firstn. lia.
  - apply firstn_map.
  - unfold note. destruct (5 <? size)%nat; reflexivity.
Qed.

Lemma locations_capped_witness :
  summarize "/repo/openapi.yaml" sample = Some sample_report /\
  forall g, In g (ruleBreakdown sample_report) ->
    let size := List.length (findings_of (RuleGroup.rule g) sample) in
    let note := JString (decimal (N.of_nat (size - 5)) ++ " more") in
    List.length (RuleGroup.locations g) <= 5 /\
    RuleGroup.locations g
    = map location_of (firstn 5 (findings_of (RuleGroup.rule g) sample)) /\
    field "truncated" (rule_group_json g)
    = (if (5 <? size)%nat then Some note else None).
Proof.
  split; [reflexivity|].
  apply (locations_capped "/repo/openapi.yaml" sample sample_report).
  reflexivity.
Defined.

(** C6.  In every report [summarize] returns, the count of each rule
    group is the number of findings carrying the group's rule, and
    [counts] holds the number of findings of severity 0, the number of
    findings of severity 1 and the number of all findings.  There is one
    group per rule of the findings list. *)
Theorem counts_exact (specPath : string) (vs : list Finding) (r : FileReport) :
  summarize specPath vs = Some r ->
  (forall g, In g (ruleBreakdown r) ->
     RuleGroup.count g = List.length (findings_of (RuleGroup.rule g) vs)) /\
  errors (counts r) = List.length (filter (fun v => (severity v =? 0)%Z) vs) /\
  warnings (counts r) = List.length (filter (fun v => (severity v =? 1)%Z) vs) /\
  total (counts r) = List.length vs /\
  NoDup (map RuleGroup.rule (ruleBreakdown r)) /\
  (forall k, In k (map RuleGroup.rule (ruleBreakdown r)) <-> In k (map code vs)).
Proof.
  intros Hs. split; [|split; [|split; [|split; [|split]]]].
  - intros g Hg. destruct (rule_breakdown_In _ _ _ _ Hs Hg) as [_ E].
    now rewrite E at 1.
  - apply summarize_inv in Hs. now destruct Hs as [_ ->].
  - apply summarize_inv in Hs. now destruct Hs as [_ ->].
  - apply summarize_inv in Hs. now destruct Hs as [_ ->].
  - apply (Permutation_NoDup (rule_breakdown_rules _ _ _ Hs)), first_seen_NoDup.
  - intros k. rewrite <- (first_seen_In k (map code vs)). split; apply Permutation_in.
    + apply Permutation_sym. eapply rule_breakdown_rules; eauto.
    + eapply rule_breakdown_rules; eauto.
Qed.

Lemma counts_exact_witness :
  summarize "/repo/openapi.yaml" sample = Some sample_report /\
  (forall g, In g (ruleBreakdown sample_report) ->
     RuleGroup.count g = List.length (findings_of (RuleGroup.rule g) sample)) /\
  errors (counts sample_report)
  = List.length (filter (fun v => (severity v =? 0)%Z) sample) /\
  warnings (counts sample_report)
  = List.length (filter (fun v => (severity v =? 1)%Z) sample) /\
  total (counts sample_report) = List.length sample /\
  NoDup (map RuleGroup.rule (ruleBreakdown sample_report)) /\
  (forall k, In k (map RuleGroup.rule (ruleBreakdown sample_report))
             <-> In k (map code sample)).
Proof.
  split; [reflexivity|].
  apply (counts_exact "/repo/openapi.yaml" sample sample_report).
  reflexivity.
Defined.

(** C8.  In every report [summarize] returns, the severity of a rule
    group is the label of the severity of the first finding of the
    group's rule in the findings list, and the labels of 0, 1, 2 and 3
    are ["error"], ["warning"], ["info"] and ["hint"]. *)
Theorem group_severity_label (specPath : string) (vs : list Finding) (r : FileReport) :
  summarize specPath vs = Some r ->
  (forall g, In g (ruleBreakdown r) ->
     exists v, find (fun v => code v =? RuleGroup.rule g) vs = Some v /\
               RuleGroup.severity g = severity_label (severity v)) /\
  severity_label 0 = "error" /\ severity_label 1 = "warning" /\
  severity_label 2 = "info" /\ severity_label 3 = "hint".
Proof.
  intros Hs. split; [|repeat split].
  intros g Hg. destruct (rule_breakdown_In _ _ _ _ Hs Hg) as [Hk E].
  destruct (findings_of_cons _ _ Hk) as (v & rest & Hv).
  exists v. rewrite find_findings_of, Hv. split; auto.
  rewrite E at 1. unfold rule_group, group_of, first_severity. simpl.
  now rewrite Hv.
Qed.

Lemma group_severity_label_witness :
  summarize "/repo/openapi.yaml" sample = Some sample_report /\
  (forall g, In g (ruleBreakdown sample_report) ->
     exists v, find (fun v => code v =? RuleGroup.rule g) sample = Some v /\
               RuleGroup.severity g = severity_label (severity v)) /\
  severity_label 0 = "error" /\ severity_label 1 = "warning" /\
  severity_label 2 = "info" /\ severity_label 3 = "hint".
Proof.
  split; [reflexivity|].
  apply (group_severity_label "/repo/openapi.yaml" sample sample_report).
  reflexivity.
Defined.

(** C9.  In every report [summarize] returns, the counts of the rule
    groups add up to [counts.total], [counts.errors + counts.warnings] is
    at most [counts.total], and every rule group lists as many locations
    as the smaller of its count and 5. *)
Theorem report_invariants (specPath : string) (vs : list Finding) (r : FileReport) :
  summarize specPath vs = Some r ->
  sum_counts (ruleBreakdown r) = total (counts r) /\
  errors (counts r) + warnings (counts r) <= total (counts r) /\
  (forall g, In g (ruleBreakdown r) ->
     List.length (RuleGroup.locations g) = Nat.min (RuleGroup.count g) 5).
Proof.
  intros Hs. split; [|split].
  - apply summarize_inv in Hs. destruct Hs as [_ ->]. simpl.
    unfold sum_counts. rewrite map_map. simpl.
    rewrite <- (Permutation_map (fun e => Group.count (snd e)) (sorted_groups_perm vs)).
    unfold groups_of. rewrite map_map. simpl.
    apply sum_findings_of; [apply first_seen_NoDup|].
    intros v Hv. apply first_seen_In. now apply in_map.
  - apply summarize_inv in Hs. destruct Hs as [_ ->]. simpl.
    apply errors_warnings_le.
  - intros g Hg. destruct (rule_breakdown_In _ _ _ _ Hs Hg) as [_ E].
    rewrite E. unfold rule_group, group_of.
    cbn [RuleGroup.locations RuleGroup.count Group.locations Group.count fst snd].
    rewrite length_firstn, length_map. lia.
Qed.

Lemma report_invariants_witness :
  summarize "/repo/openapi.yaml" sample = Some sample_report /\
  sum_counts (ruleBreakdown sample_report) = total (counts sample_report) /\
  errors (counts sample_report) + warnings (counts sample_report)
  <= total (counts sample_report) /\
  (forall g, In g (ruleBreakdown sample_report) ->
     List.length (RuleGroup.locations g) = Nat.min (RuleGroup.count g) 5).
Proof.
  split; [reflexivity|].
  apply (report_invariants "/repo/openapi.yaml" sample sample_report).
  reflexivity.
Defined.

(** C10.  In every report [summarize] returns, each location listed in a
    rule group comes from a finding of the group's rule: its path is the
    finding's path segments joined with ["."], and its line is
    [range.start.line + 1] when [range.start.line] is a number and the
    JSON value [null], held by a [line] property that is present, when it
    is missing or not a number. *)
Theorem location_path_and_line (specPath : string) (vs : list Finding) (r : FileReport) :
  summarize specPath vs = Some r ->
  forall g, In g (ruleBreakdown r) ->
  forall l, In l (RuleGroup.locations g) ->
  exists v, In v vs /\ code v = RuleGroup.rule g /\ l = location_of v /\
    loc_path l = String.concat "." (map segment_text (path v)) /\
    field "line" (location_json l)
    = Some match range_start_line v with
           | LineNumber n => JNumber (n + 1)
           | LineMissing | LineOther => JNull
           end.
Proof.
  intros Hs g Hg l Hl.
  destruct (rule_breakdown_In _ _ _ _ Hs Hg) as [_ E].
  rewrite E in Hl. unfold rule_group, group_of in Hl.
  cbn [RuleGroup.locations Group.locations fst snd] in Hl.
  rewrite firstn_map in Hl. apply in_map_iff in Hl. destruct Hl as (v & <- & Hv).
  apply In_firstn, filter_In in Hv. destruct Hv as [Hv Hc].
  apply String.eqb_eq in Hc.
  exists v. repeat split; auto.
  unfold location_json, location_of, field. simpl.
  now destruct (range_start_line v).
Qed.

Lemma location_path_and_line_witness :
  summarize "/repo/openapi.yaml" sample = Some sample_report /\
  forall g, In g (ruleBreakdown sample_report) ->
  forall l, In l (RuleGroup.locations g) ->
  exists v, In v sample /\ code v = RuleGroup.rule g /\ l = location_of v /\
    loc_path l = String.concat "." (map segment_text (path v)) /\
    field "line" (location_json l)
    = Some match range_start_line v with
           | LineNumber n => JNumber (n + 1)
           | LineMissing | LineOther => JNull
           end.
Proof.
  split; [reflexivity|].
  apply (location_path_and_line "/repo/openapi.yaml" sample sample_report).
  reflexivity.
Defined.

Lemma rule_breakdown_precedes (specPath : string) (vs : list Finding)
    (r : FileReport) (g1 g2 : RuleGroup.t) :
  summarize specPath vs = Some r -> precedes g1 g2 (ruleBreakdown r) ->
  exists e1 e2, precedes e1 e2 (sorted_groups vs) /\
    g1 = rule_group e1 /\ g2 = rule_group e2 /\
    snd e1 = group_of (fst e1) vs /\ snd e2 = group_of (fst e2) vs.
Proof.
  intros Hs Hp. apply summarize_inv in Hs. destruct Hs as [_ ->]. simpl in Hp.
  apply precedes_map in Hp. destruct Hp as (e1 & e2 & Hp & <- & <-).
  exists e1, e2. destruct (precedes_In _ _ _ Hp) as [H1 H2].
  apply sorted_groups_In in H1, H2. tauto.
Qed.

Lemma sorted_groups_ties (vs : list Finding) (e1 e2 : string * Group.t) :
  precedes e1 e2 (sorted_groups vs) -> (compare_groups e2 e1 <= 0)%Z ->
  key_precedes vs (fst e1) (fst e2).
Proof.
  intros Hp Htie. unfold sorted_groups in Hp.
  apply sort_stable in Hp; auto.
  apply entries_order in Hp.
  - unfold key_precedes.
    destruct (array_index (fst e1)), (array_index (fst e2)); auto.
    unfold groups_of in Hp. apply precedes_map in Hp.
    destruct Hp as (k1 & k2 & Hp & <- & <-). simpl.
    now apply first_seen_order.
  - rewrite groups_of_keys. apply first_seen_NoDup.
Qed.

(** C5, as the code has it.  In every report [summarize] returns, of two
    rule groups the one listed first has the smaller or the same
    severity (taken, like its label, from the first finding of its
    rule); with the same severity it has the larger or the same count;
    and with the same severity and count the two groups stand as
    [Object.entries] lists their rules: a rule named by an array index
    before a rule that is not, two such rules by ascending number, and
    two rules that are not array indices in the order they first occur in
    the findings list. *)
Theorem rule_breakdown_order (specPath : string) (vs : list Finding) (r : FileReport) :
  summarize specPath vs = Some r ->
  forall before g1 between g2 after,
    ruleBreakdown r = (before ++ g1 :: between ++ g2 :: after)%list ->
    let s1 := first_severity (RuleGroup.rule g1) vs in
    let s2 := first_severity (RuleGroup.rule g2) vs in
    RuleGroup.severity g1 = severity_label s1 /\
    RuleGroup.severity g2 = severity_label s2 /\
    (s1 <= s2)%Z /\
    (s1 = s2 -> RuleGroup.count g2 <= RuleGroup.count g1) /\
    (s1 = s2 -> RuleGroup.count g1 = RuleGroup.count g2 ->
       key_precedes vs (RuleGroup.rule g1) (RuleGroup.rule g2) /\
       (array_index (RuleGroup.rule g1) = None ->
        array_index (RuleGroup.rule g2) = None ->
        first_pos (RuleGroup.rule g1) vs < first_pos (RuleGroup.rule g2) vs)).
Proof.
  intros Hs before g1 between g2 after Hsplit s1 s2.
  assert (Hp : precedes g1 g2 (ruleBreakdown r)).
  { rewrite Hsplit. apply precedes_split. }
  destruct (rule_breakdown_precedes _ _ _ _ _ Hs Hp)
    as ([k1 d1] & [k2 d2] & Hq & -> & -> & E1 & E2).
  simpl in E1, E2. subst d1 d2.
  unfold rule_group in *. cbn [RuleGroup.rule RuleGroup.severity RuleGroup.count
                               fst snd group_of Group.severity Group.count] in *.
  pose proof (sort_ordered compare_groups compare_groups_total compare_groups_trans
                _ _ _ Hq) as Hle.
  unfold compare_groups in Hle.
  cbn [fst snd group_of Group.severity Group.count] in Hle.
  fold s1 s2 in Hle.
  split; [reflexivity|]. split; [reflexivity|].
  destruct (Z.eqb_spec (s1 - s2) 0) as [Hd|Hd].
  - split; [lia|]. split; [lia|]. intros _ Hc.
    assert (Hk : key_precedes vs k1 k2).
    { apply (sorted_groups_ties vs (k1, group_of k1 vs) (k2, group_of k2 vs)); auto.
      unfold compare_groups. cbn [fst snd group_of Group.severity Group.count].
      fold s1 s2. destruct (Z.eqb_spec (s2 - s1) 0); lia. }
    split; auto. intros N1 N2. unfold key_precedes in Hk. now rewrite N1, N2 in Hk.
  - split; [lia|]. split; intros; lia.
Qed.

Lemma rule_breakdown_order_witness :
  summarize "/repo/openapi.yaml" sample = Some sample_report /\
  forall before g1 between g2 after,
    ruleBreakdown sample_report = (before ++ g1 :: between ++ g2 :: after)%list ->
    let s1 := first_severity (RuleGroup.rule g1) sample in
    let s2 := first_severity (RuleGroup.rule g2) sample in
    RuleGroup.severity g1 = severity_label s1 /\
    RuleGroup.severity g2 = severity_label s2 /\
    (s1 <= s2)%Z /\
    (s1 = s2 -> RuleGroup.count g2 <= RuleGroup.count g1) /\
    (s1 = s2 -> RuleGroup.count g1 = RuleGroup.count g2 ->
       key_precedes sample (RuleGroup.rule g1) (RuleGroup.rule g2) /\
       (array_index (RuleGroup.rule g1) = None ->
        array_index (RuleGroup.rule g2) = None ->
        first_pos (RuleGroup.rule g1) sample < first_pos (RuleGroup.rule g2) sample)).
Proof.
  split; [reflexivity|].
  apply (rule_breakdown_order "/repo/openapi.yaml" sample sample_report).
  reflexivity.
Defined.

(** C5, as the specification has it, fails.  Of two warnings, one of rule
    ["2"] followed by one of rule ["1"], the report lists rule ["1"]
    first: the two groups have the same severity and the same count, and
    rule ["2"] was met first. *)
Lemma numbered_rules_leave_first_seen_order :
  exists r,
    summarize "/repo/openapi.yaml" numbered_rules = Some r /\
    map RuleGroup.rule (ruleBreakdown r) = ["1"; "2"] /\
    map RuleGroup.severity (ruleBreakdown r) = ["warning"; "warning"] /\
    map RuleGroup.count (ruleBreakdown r) = [1; 1] /\
    first_pos "2" numbered_rules < first_pos "1" numbered_rules /\
    ~ ties_in_first_seen_order numbered_rules (ruleBreakdown r).
Proof.
  eexists. split; [vm_compute; reflexivity|].
  repeat (split; [vm_compute; (reflexivity || lia)|]).
  intros H. simpl in H.
  match type of H with
  | ties_in_first_seen_order _ [?g1; ?g2] =>
      assert (Hp : precedes g1 g2 [g1; g2]) by (apply precedes_here; now left);
      specialize (H g1 g2 Hp eq_refl eq_refl)
  end.
  vm_compute in H. lia.
Qed.

(** ** Spec Locator *)

Lemma processEntry_file (descend : string -> node -> list string)
    (dir entry : string) :
  processEntry descend dir entry File
  = if startsWith entry "." || (entry =? "node_modules") then []
    else if isSpecFile entry then [join dir entry] else [].
Proof. reflexivity. Qed.

(** Every path the traversal returns names a file that is not hidden and
    whose name the patterns accept. *)
Lemma findSpecs_sound (depth : nat) (dir : string) (here : node) (p : string) :
  In p (findSpecs dir here depth) ->
  exists d name, p = join d name /\ spec_name name /\
    startsWith name "." = false /\ name <> "node_modules".
Proof.
  revert dir here. induction depth as [|depth IH]; intros dir here; simpl.
  - tauto.
  - destruct (readdirSync here) as [entries|]; [|simpl; tauto].
    rewrite in_flat_map. intros ([name child] & _ & Hp). simpl in Hp.
    unfold processEntry in Hp.
    destruct (startsWith name ".") eqn:Hdot; [destruct Hp|].
    destruct (name =? "node_modules") eqn:Hnm; [destruct Hp|]. simpl in Hp.
    destruct child; try (now destruct Hp).
    + destruct (isSpecFile name) eqn:Hs; [|destruct Hp].
      destruct Hp as [<-|[]]. exists dir, name.
      apply isSpecFile_spec_name in Hs. apply String.eqb_neq in Hnm. auto.
    + eapply IH; eauto.
Qed.

(** C7, as the code has it.  Of a file met in a directory, the path is
    returned exactly when the name does not begin with ["."], is not
    ["node_modules"], and ends with [".openapi.yaml"], [".openapi.yml"]
    or [".openapi.json"] or is ["openapi.yaml"], ["openapi.yml"] or
    ["openapi.json"]; the traversal of the directory then returns it.  An
    entry whose name begins with ["."] or is ["node_modules"] gives
    nothing, whatever it is: a directory of that name is not entered. *)
Theorem candidate_names (descend : string -> node -> list string)
    (dir entry : string) :
  (forall p, In p (processEntry descend dir entry File) <->
             p = join dir entry /\ startsWith entry "." = false /\
             entry <> "node_modules" /\ spec_name entry) /\
  (forall entries depth,
     In (entry, File) entries -> startsWith entry "." = false ->
     entry <> "node_modules" -> spec_name entry ->
     In (join dir entry) (findSpecs dir (Directory (Some entries)) (S depth))) /\
  (forall rest child, processEntry descend dir (String "." rest) child = []) /\
  (forall child, processEntry descend dir "node_modules" child = []).
Proof.
  assert (Hfile : forall p, In p (processEntry descend dir entry File) <->
             p = join dir entry /\ startsWith entry "." = false /\
             entry <> "node_modules" /\ spec_name entry).
  { intros p. rewrite processEntry_file, <- isSpecFile_spec_name.
    destruct (startsWith entry "."); simpl.
    - split; [tauto | intros (_ & H & _); discriminate].
    - destruct (String.eqb_spec entry "node_modules") as [E|E]; simpl.
      + split; [tauto | intros (_ & _ & H & _); tauto].
      + destruct (isSpecFile entry); simpl.
        * split; [intros [<-|[]]; auto | intros (-> & _); auto].
        * split; [tauto | intros (_ & _ & _ & H); discriminate]. }
  split; [exact Hfile|]. split; [|split].
  - intros entries depth Hin Hdot Hnm Hname. simpl. apply in_flat_map.
    exists (entry, File). split; auto. simpl.
    rewrite processEntry_file, Hdot.
    apply String.eqb_neq in Hnm. rewrite Hnm. simpl.
    apply isSpecFile_spec_name in Hname. rewrite Hname. now left.
  - intros rest child. unfold processEntry, startsWith. simpl.
    now destruct rest.
  - reflexivity.
Qed.

(** C7, as the specification has it, fails: a file named [openapi.yml]
    is returned, and its name is none of the four the specification
    lists. *)
Lemma yml_file_is_candidate :
  findSpecs "/repo" (Directory (Some [("openapi.yml", File)])) 3
  = ["/repo/openapi.yml"] /\
  ~ listed_spec_name "openapi.yml".
Proof. split; [reflexivity | exact listed_spec_name_no_yml]. Qed.

(** ** Linter Invoker and Report Emitter *)

Lemma map_throwing_Some {A B : Type} (f : A -> option B) (l : list A) (ys : list B) :
  map_throwing f l = Some ys -> Forall2 (fun x y => f x = Some y) l ys.
Proof.
  revert ys; induction l as [|x l IH]; simpl; intros ys H.
  - injection H as <-. constructor.
  - destruct (f x) as [y|] eqn:Hx; [|discriminate].
    destruct (map_throwing f l) as [ys'|]; [|discriminate].
    injection H as <-. constructor; auto.
Qed.

Lemma map_throwing_None {A B : Type} (f : A -> option B) (l : list A) (x : A) :
  In x l -> f x = None -> map_throwing f l = None.
Proof.
  induction l as [|y l IH]; simpl; intros Hin Hx; [destruct Hin|].
  destruct Hin as [->|Hin].
  - now rewrite Hx.
  - destruct (f y); auto. now rewrite IH.
Qed.

Lemma no_errors_iff (vs : list Finding) :
  (List.length (filter (fun v => (severity v =? 0)%Z) vs) =? 0)%nat = true
  <-> forall v, In v vs -> severity v <> 0%Z.
Proof.
  induction vs as [|u vs IH]; simpl.
  - split; [tauto | reflexivity].
  - destruct (Z.eqb_spec (severity u) 0) as [E|E]; simpl.
    + split; [discriminate | intros H; exfalso; apply (H u); auto].
    + rewrite IH. split.
      * intros H v [<-|Hv]; auto.
      * intros H v Hv. apply H. auto.
Qed.

Lemma main_report (h : Host) (args : list string) (rep : Report) :
  stdout (main h args) = [rep] ->
  map_throwing (report_one h) (specs h args) = Some (results rep) /\
  allPass rep = forallb pass (results rep) /\
  exit_code (main h args) = if allPass rep then 0%Z else 1%Z.
Proof.
  unfold main. destruct (specs h args) as [|s ss] eqn:Hspecs; [discriminate|].
  destruct (map_throwing (report_one h) (s :: ss)) as [rs|]; [|discriminate].
  simpl. intros [= <-]. simpl. auto.
Qed.

(** C1.  When a run prints a report, the report holds one result per
    spec file, made by [summarize] from what [lintSpec] returned for the
    file; [pass] of a result is true exactly when none of these findings
    has severity 0; [allPass] is the conjunction of all [pass]; and the
    exit code is 0 exactly when [allPass] is true, and 1 otherwise. *)
Theorem verdict_and_exit_code (h : Host) (args : list string) (rep : Report) :
  stdout (main h args) = [rep] ->
  Forall2
    (fun specPath r =>
       exists vs, lintSpec h specPath = Some vs /\
                  summarize specPath vs = Some r /\
                  (pass r = true <-> forall v, In v vs -> severity v <> 0%Z))
    (specs h args) (results rep) /\
  allPass rep = forallb pass (results rep) /\
  (exit_code (main h args) = 0%Z <-> allPass rep = true) /\
  (allPass rep = false -> exit_code (main h args) = 1%Z).
Proof.
  intros Hout. destruct (main_report _ _ _ Hout) as (Hmap & Hall & Hexit).
  split; [|split; [exact Hall|]].
  - apply map_throwing_Some in Hmap.
    eapply Forall2_impl; [|exact Hmap]. intros specPath r Hr. simpl in Hr.
    unfold report_one in Hr.
    destruct (lintSpec h specPath) as [vs|] eqn:Hlint; [|discriminate].
    exists vs. split; [reflexivity|]. split; [exact Hr|].
    destruct (summarize_inv _ _ _ Hr) as [_ E]. rewrite E. simpl.
    apply no_errors_iff.
  - rewrite Hexit. destruct (allPass rep); (split; [split|]); intros; auto; discriminate.
Qed.

Lemma verdict_and_exit_code_witness :
  stdout (main mixed_host []) = [mixed_report] /\
  (Forall2
    (fun specPath r =>
       exists vs, lintSpec mixed_host specPath = Some vs /\
                  summarize specPath vs = Some r /\
                  (pass r = true <-> forall v, In v vs -> severity v <> 0%Z))
    (specs mixed_host []) (results mixed_report) /\
  allPass mixed_report = forallb pass (results mixed_report) /\
  (exit_code (main mixed_host []) = 0%Z <-> allPass mixed_report = true) /\
  (allPass mixed_report = false -> exit_code (main mixed_host []) = 1%Z)).
Proof.
  split; [reflexivity|].
  apply (verdict_and_exit_code mixed_host [] mixed_report). reflexivity.
Defined.

Lemma lintSpec_cases (h : Host) (specPath : string) :
  (spectral h specPath = Exited 0 "" /\ lintSpec h specPath = Some []) \/
  (spectral h specPath <> Exited 0 "" /\ lintSpec h specPath = captured h specPath).
Proof.
  unfold lintSpec, captured. destruct (spectral h specPath) as [|status raw].
  - right. split; [discriminate | reflexivity].
  - destruct (Z.eqb_spec status 0) as [->|Hs];
      destruct (String.eqb_spec raw "") as [->|Hr].
    + left. split; auto. apply JSON_parse_empty_array.
    + right. split; [congruence | reflexivity].
    + right. split; [congruence | now rewrite JSON_parse_empty_text].
    + right. split; [congruence | reflexivity].
Qed.

(** C2, as the code has it.  [lintSpec] returns the parsed findings
    whenever the linter's standard output is JSON, whatever the exit
    status.  It throws exactly when no JSON was captured, one case apart:
    when the linter exits with status 0 and prints nothing, [lintSpec]
    returns the empty list.  When [lintSpec] throws for one of the spec
    files, the run ends with exit code 1 and prints no report. *)
Theorem lintSpec_outcome (h : Host) (specPath : string) :
  (forall vs, captured h specPath = Some vs -> lintSpec h specPath = Some vs) /\
  (lintSpec h specPath = None <->
   captured h specPath = None /\ spectral h specPath <> Exited 0 "") /\
  (spectral h specPath = Exited 0 "" -> lintSpec h specPath = Some []) /\
  (forall args, In specPath (specs h args) -> lintSpec h specPath = None ->
     exit_code (main h args) = 1%Z /\ stdout (main h args) = []).
Proof.
  split; [|split; [|split]].
  - intros vs Hc. destruct (lintSpec_cases h specPath) as [[Hrun _]|[_ ->]]; auto.
    unfold captured in Hc. rewrite Hrun, JSON_parse_empty_text in Hc. discriminate.
  - destruct (lintSpec_cases h specPath) as [[Hrun ->]|[Hrun ->]].
    + split; [discriminate | tauto].
    + tauto.
  - intros Hrun. destruct (lintSpec_cases h specPath) as [[_ H]|[H _]]; tauto.
  - intros args Hin Hthrow. unfold main.
    destruct (specs h args) as [|s ss] eqn:Hspecs; [destruct Hin|].
    rewrite (map_throwing_None (report_one h) (s :: ss) specPath); auto.
    unfold report_one. now rewrite Hthrow.
Qed.

(** C2, as the specification has it, fails.  A linter that exits with
    status 0 and prints nothing leaves no JSON to parse, yet [lintSpec]
    does not throw: it returns the empty list, and the run reports the
    file as passing, with exit code 0. *)
Lemma empty_output_is_reported_clean :
  spectral silent_host "/repo/openapi.yaml" = Exited 0 "" /\
  captured silent_host "/repo/openapi.yaml" = None /\
  lintSpec silent_host "/repo/openapi.yaml" = Some [] /\
  ~ (lintSpec silent_host "/repo/openapi.yaml" = None <->
     captured silent_host "/repo/openapi.yaml" = None) /\
  main silent_host ["openapi.yaml"]
  = {| exit_code := 0;
       stdout := [ {| allPass := true;
                      results := [ {| spec := "/repo/openapi.yaml"; pass := true;
                                      counts := {| errors := 0; warnings := 0;
                                                   total := 0 |};
                                      ruleBreakdown := [] |} ] |} ];
       stderr := [] |}.
Proof.
  repeat split; try reflexivity.
  intros [_ H]. specialize (H eq_refl). discriminate.
Qed.

(** C3, as the code has it.  When no spec file is found, which only
    happens without explicit paths, the process exits with code 0, prints
    nothing to the standard output, and sends the diagnostic to the error
    channel. *)
Theorem no_specs_outcome (h : Host) (args : list string) :
  specs h args = [] ->
  args = [] /\
  main h args = {| exit_code := 0; stdout := [];
                   stderr := [Diagnostic NO_SPECS_MESSAGE] |}.
Proof.
  intros H. split.
  - destruct args; auto. discriminate.
  - unfold main. now rewrite H.
Qed.

Lemma no_specs_outcome_witness :
  specs silent_host [] = [] /\
  ([] = @nil string /\
   main silent_host [] = {| exit_code := 0; stdout := [];
                            stderr := [Diagnostic NO_SPECS_MESSAGE] |}).
Proof.
  split; [reflexivity|].
  apply (no_specs_outcome silent_host []). reflexivity.
Defined.

(** C3, as the specification has it, fails.  In a repository without
    spec files the run exits with code 0 and writes its diagnostic, but
    the standard output stays empty: no document with [allPass] true and
    empty [results] is printed. *)
Lemma no_specs_prints_no_report :
  specs silent_host [] = [] /\
  exit_code (main silent_host []) = 0%Z /\
  stdout (main silent_host []) = [] /\
  stdout (main silent_host []) <> [ {| allPass := true; results := [] |} ].
Proof. repeat split; try reflexivity. discriminate. Qed.

(** ** The first revision *)


(** The first revision knows two labels only. *)
Remark first_revision_labels :
  map FirstRevision.severity_label [0; 1; 2; 3]%Z
  = ["error"; "warning"; "warning"; "warning"] /\
  map severity_label [0; 1; 2; 3]%Z = ["error"; "warning"; "info"; "hint"].
Proof. split; reflexivity. Qed.

(** Without spec files both revisions print nothing; the first one exits
    with code 1. *)
Remark first_revision_no_specs :
  stdout FirstRevision.no_specs = [] /\ exit_code FirstRevision.no_specs = 1%Z.
Proof. split; reflexivity. Qed.

(** * Further properties *)

(** ** Discovery *)

Lemma located_nonempty (here : node) (names : list string) :
  located here names -> names <> [].
Proof. destruct 1; discriminate. Qed.

Lemma processEntry_visible (descend : string -> node -> list string)
    (dir entry : string) (child : node) :
  visible entry ->
  processEntry descend dir entry child
  = match child with
    | File => if isSpecFile entry then [join dir entry] else []
    | Directory _ => descend (join dir entry) child
    | Special | Unreachable => []
    end.
Proof.
  intros [Hdot Hnm]. unfold processEntry. rewrite Hdot.
  apply String.eqb_neq in Hnm. rewrite Hnm. simpl. now destruct child.
Qed.

Lemma processEntry_In (descend : string -> node -> list string)
    (dir entry : string) (child : node) (p : string) :
  In p (processEntry descend dir entry child) ->
  visible entry /\
  ((child = File /\ spec_name entry /\ p = join dir entry) \/
   (exists listing, child = Directory listing /\ In p (descend (join dir entry) child))).
Proof.
  unfold processEntry. intros H.
  destruct (startsWith entry ".") eqn:Hdot; [destruct H|].
  destruct (String.eqb_spec entry "node_modules") as [|Hnm]; [destruct H|].
  simpl in H. split; [split; auto|].
  destruct child; try (now destruct H).
  - destruct (isSpecFile entry) eqn:Hs; [|destruct H].
    destruct H as [<-|[]]. left. apply isSpecFile_spec_name in Hs. auto.
  - right. eauto.
Qed.

(** X1.  The traversal returns exactly the paths of the regular files
    that lie at most [depth] entries below the start, behind readable
    directories, along names that are all visible, and whose own name the
    patterns accept. *)
Theorem findSpecs_located (depth : nat) (dir : string) (here : node) (p : string) :
  In p (findSpecs dir here depth) <->
  exists names,
    located here names /\ List.length names <= depth /\
    Forall visible names /\ spec_name (last names "") /\
    p = path_below dir names.
Proof.
  revert dir here p. induction depth as [|depth IH]; intros dir here p.
  - simpl. split; [tauto|].
    intros (names & Hloc & Hlen & _). apply located_nonempty in Hloc.
    destruct names; [congruence | simpl in Hlen; lia].
  - simpl. split.
    + destruct (readdirSync here) as [entries|] eqn:Hdir; [|simpl; tauto].
      destruct here; try discriminate. simpl in Hdir. subst listing.
      rewrite in_flat_map. intros ([name child] & Hin & Hp). simpl in Hp.
      apply processEntry_In in Hp.
      destruct Hp as [Hvis [(-> & Hname & ->)|(listing & -> & Hp)]].
      * exists [name]. repeat split; auto; try (simpl; lia).
        now apply located_file.
      * apply IH in Hp. destruct Hp as (names & Hloc & Hlen & Hall & Hlast & ->).
        exists (name :: names). repeat split; auto.
        -- eapply located_below; eauto.
        -- simpl. lia.
        -- pose proof (located_nonempty _ _ Hloc). destruct names; [congruence|].
           exact Hlast.
    + intros (names & Hloc & Hlen & Hall & Hlast & ->).
      inversion Hloc as [entries name Hin|entries name child rest Hin Hrest]; subst.
      * simpl. apply in_flat_map. exists (name, File). split; auto. simpl.
        inversion Hall; subst. rewrite processEntry_visible by auto.
        simpl in Hlast. apply isSpecFile_spec_name in Hlast. rewrite Hlast.
        now left.
      * simpl. apply in_flat_map. exists (name, child). split; auto. simpl.
        inversion Hall; subst. rewrite processEntry_visible by auto.
        pose proof (located_nonempty _ _ Hrest) as Hne.
        assert (Hdir : exists listing, child = Directory listing).
        { inversion Hrest; eauto. }
        destruct Hdir as (listing & ->).
        apply IH. exists rest. repeat split; auto.
        -- simpl in Hlen. lia.
        -- destruct rest; [congruence | exact Hlast].
Qed.

Lemma processEntry_barren (descend : string -> node -> list string)
    (dir entry : string) (child : node) :
  barren child ->
  (forall full, descend full (Directory None) = []) ->
  processEntry descend dir entry child = [].
Proof.
  intros [-> | [-> | ->]] Hdescend; unfold processEntry;
    destruct (startsWith entry "." || (entry =? "node_modules")); auto.
Qed.

(** X2.  An entry the traversal gets nothing from (one [statSync] fails
    on, one that is neither a file nor a directory, a directory that
    cannot be read) does not disturb the others: the traversal returns
    what it returns without that entry, in the same order. *)
Theorem findSpecs_skips_barren (dir name : string) (child : node)
    (before after : list (string * node)) (depth : nat) :
  barren child ->
  findSpecs dir (Directory (Some (before ++ (name, child) :: after)%list)) depth
  = findSpecs dir (Directory (Some (before ++ after)%list)) depth.
Proof.
  intros Hbarren. destruct depth as [|depth]; simpl; auto.
  rewrite !flat_map_app. simpl.
  rewrite processEntry_barren; auto.
  intros full. now destruct depth.
Qed.

Lemma findSpecs_skips_barren_witness :
  barren Unreachable /\
  findSpecs "/repo/api"
    (Directory (Some ([("quotes.openapi.yml", File)]
                      ++ ("latest", Unreachable) :: [("openapi.json", File)])%list)) 2
  = findSpecs "/repo/api"
      (Directory (Some ([("quotes.openapi.yml", File)]
                        ++ [("openapi.json", File)])%list)) 2.
Proof.
  split; [now left|].
  apply (findSpecs_skips_barren "/repo/api" "latest" Unreachable). now left.
Defined.

(** ** Discovery in the first revision *)

Lemma first_revision_processEntry (d1 d2 : string -> node -> list string)
    (dir entry : string) (child : node) (found : list string) :
  (forall full n, incl (d1 full n) (d2 full n)) ->
  FirstRevision.processEntry d1 dir entry child = Some found ->
  incl found (processEntry d2 dir entry child).
Proof.
  intros Hd. unfold FirstRevision.processEntry, processEntry.
  destruct (startsWith entry "." || (entry =? "node_modules")).
  - intros [= <-]. apply incl_refl.
  - destruct child; intros [= <-]; auto using incl_refl.
Qed.

Lemma concat_incl_flat_map {A : Type} (f : A -> option (list string))
    (g : A -> list string) (l : list A) (found : list (list string)) :
  (forall x ys, f x = Some ys -> incl ys (g x)) ->
  map_throwing f l = Some found ->
  incl (List.concat found) (flat_map g l).
Proof.
  intros Hfg. revert found. induction l as [|x l IH]; simpl; intros found H.
  - injection H as <-. apply incl_refl.
  - destruct (f x) as [ys|] eqn:Hx; [|discriminate].
    destruct (map_throwing f l) as [rest|]; [|discriminate].
    injection H as <-. simpl. apply incl_app_app; auto.
Qed.

(** X3.  Guarding [statSync] only added results: the first revision
    returns nothing the current one does not return.  Where a directory
    holds a visible entry [statSync] fails on, the first revision returns
    nothing at all for that directory. *)
Theorem first_revision_findSpecs (depth : nat) (dir : string) :
  (forall here,
     incl (FirstRevision.findSpecs dir here depth) (findSpecs dir here depth)) /\
  (forall entries name,
     In (name, Unreachable) entries -> visible name ->
     FirstRevision.findSpecs dir (Directory (Some entries)) depth = []).
Proof.
  split.
  - revert dir. induction depth as [|depth IH]; intros dir here; simpl.
    + apply incl_refl.
    + destruct (readdirSync here) as [entries|]; [|apply incl_refl].
      destruct (map_throwing _ entries) as [found|] eqn:Hmap; [|apply incl_nil_l].
      eapply concat_incl_flat_map; [|exact Hmap].
      intros [name child] ys Hys. simpl in *.
      eapply first_revision_processEntry; [|exact Hys].
      intros full n. apply IH.
  - intros entries name Hin [Hdot Hnm]. destruct depth as [|depth]; simpl; auto.
    rewrite (map_throwing_None _ entries (name, Unreachable)); auto.
    simpl. unfold FirstRevision.processEntry. rewrite Hdot.
    apply String.eqb_neq in Hnm. now rewrite Hnm.
Qed.

Example findSpecs_dangling_tree :
  findSpecs "/repo" dangling_tree 3
  = ["/repo/api/quotes.openapi.yml"; "/repo/openapi.yaml"] /\
  FirstRevision.findSpecs "/repo" dangling_tree 3 = ["/repo/openapi.yaml"].
Proof. split; reflexivity. Qed.

(** ** More on [summarize] *)

Lemma existsb_shadowed_true (vs : list Finding) :
  existsb shadowed vs = true <->
  exists v, In v vs /\ In (code v) JsObject.prototype_keys.
Proof.
  rewrite existsb_exists. unfold shadowed.
  split; intros (v & Hv & H); exists v; split; auto; now apply existsb_eqb_In.
Qed.

(** X4.  [summarize] throws exactly when some finding's rule is named
    like a property of [Object.prototype]; for every other findings list
    it returns a report. *)
Theorem summarize_throws_iff (specPath : string) (vs : list Finding) :
  summarize specPath vs = None <->
  exists v, In v vs /\ In (code v) JsObject.prototype_keys.
Proof.
  rewrite <- existsb_shadowed_true. unfold summarize.
  rewrite group_by_rule_groups_of.
  destruct (existsb shadowed vs); split; auto; discriminate.
Qed.

Lemma rule_breakdown_group (specPath : string) (vs : list Finding) (r : FileReport)
    (k : string) :
  summarize specPath vs = Some r -> In k (map code vs) ->
  In (rule_group (k, group_of k vs)) (ruleBreakdown r).
Proof.
  intros Hs Hk. apply first_seen_In in Hk.
  apply (Permutation_in _ (rule_breakdown_rules _ _ _ Hs)) in Hk.
  apply in_map_iff in Hk. destruct Hk as (g & <- & Hg).
  destruct (rule_breakdown_In _ _ _ _ Hs Hg) as [_ E]. now rewrite <- E.
Qed.

(** X5.  No finding is dropped silently: a finding among the first five
    of its rule has its location listed in the group of that rule, so
    every finding of a rule with at most five findings is listed. *)
Theorem first_five_listed (specPath : string) (vs : list Finding) (r : FileReport) :
  summarize specPath vs = Some r ->
  (forall v, In v (firstn 5 (findings_of (code v) vs)) ->
     exists g, In g (ruleBreakdown r) /\ RuleGroup.rule g = code v /\
               In (location_of v) (RuleGroup.locations g)) /\
  (forall v, In v vs -> List.length (findings_of (code v) vs) <= 5 ->
     exists g, In g (ruleBreakdown r) /\ RuleGroup.rule g = code v /\
               In (location_of v) (RuleGroup.locations g)).
Proof.
  intros Hs.
  assert (Hfive : forall v, In v (firstn 5 (findings_of (code v) vs)) ->
     exists g, In g (ruleBreakdown r) /\ RuleGroup.rule g = code v /\
               In (location_of v) (RuleGroup.locations g)).
  { intros v Hv. exists (rule_group (code v, group_of (code v) vs)).
    split; [|split; [reflexivity|]].
    - apply (rule_breakdown_group _ _ _ _ Hs).
      apply In_firstn, filter_In in Hv. apply in_map. tauto.
    - unfold rule_group, group_of.
      cbn [RuleGroup.locations Group.locations fst snd].
      rewrite firstn_map. now apply in_map. }
  split; [exact Hfive|].
  intros v Hv Hlen. apply Hfive. rewrite firstn_all2 by exact Hlen.
  apply filter_In. split; auto. apply String.eqb_refl.
Qed.

Lemma first_five_listed_witness :
  summarize "/repo/openapi.yaml" sample = Some sample_report /\
  (forall v, In v (firstn 5 (findings_of (code v) sample)) ->
     exists g, In g (ruleBreakdown sample_report) /\ RuleGroup.rule g = code v /\
               In (location_of v) (RuleGroup.locations g)) /\
  (forall v, In v sample -> List.length (findings_of (code v) sample) <= 5 ->
     exists g, In g (ruleBreakdown sample_report) /\ RuleGroup.rule g = code v /\
               In (location_of v) (RuleGroup.locations g)).
Proof.
  split; [reflexivity|].
  apply (first_five_listed "/repo/openapi.yaml" sample sample_report).
  reflexivity.
Defined.

Lemma filter_length_perm {A : Type} (keep : A -> bool) (l l' : list A) :
  Permutation l l' ->
  List.length (filter keep l) = List.length (filter keep l').
Proof.
  induction 1 as [|x l l' _ IH|x y l|l l' l'' _ IH1 _ IH2]; simpl; auto.
  - destruct (keep x); simpl; auto.
  - destruct (keep x), (keep y); reflexivity.
  - congruence.
Qed.

Lemma existsb_perm {A : Type} (keep : A -> bool) (l l' : list A) :
  Permutation l l' -> existsb keep l = existsb keep l'.
Proof.
  induction 1 as [|x l l' _ IH|x y l|l l' l'' _ IH1 _ IH2]; simpl; auto.
  - now rewrite IH.
  - destruct (keep x), (keep y); reflexivity.
  - congruence.
Qed.

(** X6.  The verdict and the numbers do not depend on the order in which
    the linter lists its findings: a reordered list gives a report too,
    with the same [pass], the same [counts], and a group of the same
    count for each rule. *)
Theorem summarize_order_independent (specPath : string) (vs vs' : list Finding)
    (r : FileReport) :
  Permutation vs vs' ->
  summarize specPath vs = Some r ->
  exists r', summarize specPath vs' = Some r' /\
    pass r' = pass r /\ counts r' = counts r /\
    forall g, In g (ruleBreakdown r) ->
      exists g', In g' (ruleBreakdown r') /\
                 RuleGroup.rule g' = RuleGroup.rule g /\
                 RuleGroup.count g' = RuleGroup.count g.
Proof.
  intros Hperm Hs.
  destruct (summarize_inv _ _ _ Hs) as [Hsh Hr].
  assert (Hsh' : existsb shadowed vs' = false).
  { now rewrite <- (existsb_perm shadowed vs vs' Hperm). }
  destruct (proj1 (summarize_returns specPath vs') Hsh') as (r' & Hs').
  destruct (summarize_inv _ _ _ Hs') as [_ Hr'].
  exists r'. split; [exact Hs'|].
  split; [|split].
  - rewrite Hr, Hr'. simpl.
    now rewrite (filter_length_perm _ vs vs' Hperm).
  - rewrite Hr, Hr'. simpl.
    rewrite !(filter_length_perm _ vs vs' Hperm).
    now rewrite (Permutation_length Hperm).
  - intros g Hg. destruct (rule_breakdown_In _ _ _ _ Hs Hg) as [Hk E].
    exists (rule_group (RuleGroup.rule g, group_of (RuleGroup.rule g) vs')).
    split; [|split; [reflexivity|]].
    + apply (rule_breakdown_group _ _ _ _ Hs').
      apply (Permutation_in _ (Permutation_map code Hperm)). exact Hk.
    + assert (Hc : RuleGroup.count g
                   = List.length (findings_of (RuleGroup.rule g) vs)).
      { now rewrite E at 1. }
      rewrite Hc. unfold rule_group, group_of, findings_of.
      cbn [RuleGroup.count Group.count fst snd].
      symmetry. apply filter_length_perm, Hperm.
Qed.

Lemma summarize_order_independent_witness :
  Permutation sample (rev sample) /\
  summarize "/repo/openapi.yaml" sample = Some sample_report /\
  exists r', summarize "/repo/openapi.yaml" (rev sample) = Some r' /\
    pass r' = pass sample_report /\ counts r' = counts sample_report /\
    forall g, In g (ruleBreakdown sample_report) ->
      exists g', In g' (ruleBreakdown r') /\
                 RuleGroup.rule g' = RuleGroup.rule g /\
                 RuleGroup.count g' = RuleGroup.count g.
Proof.
  split; [apply Permutation_rev|]. split; [reflexivity|].
  apply (summarize_order_independent "/repo/openapi.yaml" sample (rev sample)
           sample_report).
  - apply Permutation_rev.
  - reflexivity.
Defined.

Lemma severity_label_error (s : Z) : severity_label s = "error" <-> s = 0%Z.
Proof.
  unfold severity_label, SEVERITY_LABELS. cbn [find fst snd].
  destruct (Z.eqb_spec 0 s); [split; intros; subst; reflexivity|].
  destruct (Z.eqb_spec 1 s); [split; intros; [discriminate | congruence]|].
  destruct (Z.eqb_spec 2 s); [split; intros; [discriminate | congruence]|].
  destruct (Z.eqb_spec 3 s); split; intros; try discriminate; congruence.
Qed.

Lemma some_error (vs : list Finding) :
  (List.length (filter (fun v => (severity v =? 0)%Z) vs) =? 0)%nat = false <->
  exists v, In v vs /\ severity v = 0%Z.
Proof.
  induction vs as [|u vs IH]; simpl.
  - split; [discriminate | intros (v & [] & _)].
  - destruct (Z.eqb_spec (severity u) 0) as [E|E]; simpl.
    + split; auto. intros _. exists u. auto.
    + rewrite IH. split.
      * intros (v & Hv & H). exists v. auto.
      * intros (v & [<-|Hv] & H); [tauto | eauto].
Qed.

(** X7.  A group labelled ["error"] makes [pass] false.  When every
    finding has the severity of the first finding of its rule, the
    converse holds: a failing report shows a group labelled ["error"].
    (Without that, it need not: see [pass_without_error_group].) *)
Theorem error_group_and_pass (specPath : string) (vs : list Finding) (r : FileReport) :
  summarize specPath vs = Some r ->
  ((exists g, In g (ruleBreakdown r) /\ RuleGroup.severity g = "error") ->
   pass r = false) /\
  (one_severity_per_rule vs -> pass r = false ->
   exists g, In g (ruleBreakdown r) /\ RuleGroup.severity g = "error").
Proof.
  intros Hs. destruct (summarize_inv _ _ _ Hs) as [_ Hr]. split.
  - intros (g & Hg & Hlabel).
    destruct (rule_breakdown_In _ _ _ _ Hs Hg) as [Hk E].
    rewrite E in Hlabel. unfold rule_group, group_of in Hlabel.
    cbn [RuleGroup.severity Group.severity fst snd] in Hlabel.
    apply severity_label_error in Hlabel. unfold first_severity in Hlabel.
    destruct (findings_of_cons _ _ Hk) as (v & rest & Hv). rewrite Hv in Hlabel.
    rewrite Hr. simpl. apply some_error. exists v. split; auto.
    assert (Hin : In v (findings_of (RuleGroup.rule g) vs)) by (rewrite Hv; now left).
    now apply filter_In in Hin.
  - intros Hone Hfail. rewrite Hr in Hfail. simpl in Hfail.
    apply some_error in Hfail. destruct Hfail as (v & Hv & Hsev).
    exists (rule_group (code v, group_of (code v) vs)). split.
    + apply (rule_breakdown_group _ _ _ _ Hs). now apply in_map.
    + unfold rule_group, group_of.
      cbn [RuleGroup.severity Group.severity fst snd].
      apply severity_label_error. now rewrite <- (Hone v Hv).
Qed.

Lemma error_group_and_pass_witness :
  summarize "/repo/openapi.yaml" sample = Some sample_report /\
  ((exists g, In g (ruleBreakdown sample_report) /\ RuleGroup.severity g = "error") ->
   pass sample_report = false) /\
  (one_severity_per_rule sample -> pass sample_report = false ->
   exists g, In g (ruleBreakdown sample_report) /\ RuleGroup.severity g = "error").
Proof.
  split; [reflexivity|].
  apply (error_group_and_pass "/repo/openapi.yaml" sample sample_report).
  reflexivity.
Defined.

Example sample_one_severity_per_rule : one_severity_per_rule sample.
Proof.
  intros v [<-|[<-|[<-|[<-|[]]]]]; reflexivity.
Qed.

Example pass_without_error_group :
  option_map (fun r => (pass r, map RuleGroup.severity (ruleBreakdown r)))
    (summarize "/repo/openapi.yaml" mixed_severities)
  = Some (false, ["warning"]).
Proof. reflexivity. Qed.

(** X8.  No group is empty and none counts more than there are findings:
    every rule group stands for at least one finding, lists at least one
    location, and there are at most as many groups as findings. *)
Theorem groups_not_empty (specPath : string) (vs : list Finding) (r : FileReport) :
  summarize specPath vs = Some r ->
  (forall g, In g (ruleBreakdown r) ->
     1 <= RuleGroup.count g <= total (counts r) /\
     RuleGroup.locations g <> []) /\
  List.length (ruleBreakdown r) <= total (counts r).
Proof.
  intros Hs. destruct (summarize_inv _ _ _ Hs) as [_ Hr]. split.
  - intros g Hg. destruct (rule_breakdown_In _ _ _ _ Hs Hg) as [Hk E].
    destruct (findings_of_cons _ _ Hk) as (v & rest & Hv).
    rewrite E, Hr. unfold rule_group, group_of.
    cbn [RuleGroup.count RuleGroup.locations Group.count Group.locations
         fst snd counts total].
    rewrite Hv. simpl. split; [split; [lia|] | discriminate].
    change (S (List.length rest)) with (List.length (v :: rest)).
    rewrite <- Hv. unfold findings_of. apply filter_length_le.
  - rewrite <- (length_map RuleGroup.rule).
    rewrite <- (Permutation_length (rule_breakdown_rules _ _ _ Hs)).
    rewrite Hr. simpl.
    rewrite <- (length_map code vs).
    apply NoDup_incl_length; [apply first_seen_NoDup|].
    intros k Hk. now apply first_seen_In.
Qed.

Lemma groups_not_empty_witness :
  summarize "/repo/openapi.yaml" sample = Some sample_report /\
  (forall g, In g (ruleBreakdown sample_report) ->
     1 <= RuleGroup.count g <= total (counts sample_report) /\
     RuleGroup.locations g <> []) /\
  List.length (ruleBreakdown sample_report) <= total (counts sample_report).
Proof.
  split; [reflexivity|].
  apply (groups_not_empty "/repo/openapi.yaml" sample sample_report).
  reflexivity.
Defined.

(** ** More on [main] *)

Lemma map_throwing_None_iff {A B : Type} (f : A -> option B) (l : list A) :
  map_throwing f l = None <-> exists x, In x l /\ f x = None.
Proof.
  split.
  - induction l as [|x l IH]; simpl; [discriminate|].
    destruct (f x) as [y|] eqn:Hx; [|intros _; exists x; auto].
    destruct (map_throwing f l); [discriminate|].
    intros _. destruct (IH eq_refl) as (z & Hz & Hfz). exists z. auto.
  - intros (x & Hx & Hfx). eapply map_throwing_None; eauto.
Qed.

Lemma report_one_None (h : Host) (specPath : string) :
  report_one h specPath = None <->
  lintSpec h specPath = None \/
  exists vs, lintSpec h specPath = Some vs /\ summarize specPath vs = None.
Proof.
  unfold report_one. destruct (lintSpec h specPath) as [vs|].
  - split.
    + intros H. right. exists vs. auto.
    + intros [H|(vs' & [= <-] & H)]; [discriminate | exact H].
  - split; auto.
Qed.



(** X10.  A printed report holds one result per spec file, in the order
    the files were given or found, each under the path it was linted by. *)
Theorem results_follow_specs (h : Host) (args : list string) (rep : Report) :
  stdout (main h args) = [rep] ->
  map spec (results rep) = specs h args.
Proof.
  intros Hout. destruct (main_report _ _ _ Hout) as (Hmap & _).
  apply map_throwing_Some in Hmap.
  induction Hmap as [|specPath r paths rs Hr _ IH]; simpl; auto.
  f_equal; auto. unfold report_one in Hr.
  destruct (lintSpec h specPath) as [vs|]; [|discriminate].
  apply summarize_inv in Hr. now destruct Hr as [_ ->].
Qed.

Lemma results_follow_specs_witness :
  stdout (main mixed_host []) = [mixed_report] /\
  map spec (results mixed_report) = specs mixed_host [].
Proof.
  split; [reflexivity|].
  apply (results_follow_specs mixed_host [] mixed_report). reflexivity.
Defined.

(** X11.  A run ends in one of three ways and never mixes them: the
    diagnostic alone with exit code 0 when there is nothing to lint; one
    report and nothing on the error channel; or an uncaught exception
    with exit code 1 and nothing printed.  The last happens exactly when,
    for some spec file, [lintSpec] throws or [summarize] throws on what
    [lintSpec] returned. *)
Theorem main_outcomes (h : Host) (args : list string) :
  (main h args = {| exit_code := 0; stdout := [];
                    stderr := [Diagnostic NO_SPECS_MESSAGE] |} \/
   (exists rep, stdout (main h args) = [rep] /\ stderr (main h args) = []) \/
   main h args = {| exit_code := 1; stdout := [];
                    stderr := [UncaughtException] |}) /\
  (main h args = {| exit_code := 1; stdout := []; stderr := [UncaughtException] |}
   <-> exists specPath, In specPath (specs h args) /\
         (lintSpec h specPath = None \/
          exists vs, lintSpec h specPath = Some vs /\ summarize specPath vs = None)).
Proof.
  unfold main. destruct (specs h args) as [|s ss] eqn:Hspecs.
  - split; [now left|]. split; [discriminate | intros (p & [] & _)].
  - destruct (map_throwing (report_one h) (s :: ss)) as [rs|] eqn:Hmap.
    + split; [right; left; eexists; split; reflexivity|].
      split; [intros H; destruct (forallb pass rs); discriminate|].
      intros (p & Hp & Hthrow). apply report_one_None in Hthrow.
      rewrite (map_throwing_None _ _ _ Hp Hthrow) in Hmap. discriminate.
    + split; [right; right; reflexivity|]. split; [|reflexivity].
      intros _. apply map_throwing_None_iff in Hmap.
      destruct Hmap as (p & Hp & Hthrow). exists p. split; auto.
      now apply report_one_None.
Qed.

Lemma all_pass_iff (h : Host) (paths : list string) (rs : list FileReport) :
  Forall2 (fun p r => report_one h p = Some r) paths rs ->
  (forallb pass rs = true <->
   forall specPath, In specPath paths ->
     exists vs, lintSpec h specPath = Some vs /\
                summarize specPath vs <> None /\
                forall v, In v vs -> severity v <> 0%Z).
Proof.
  induction 1 as [|p r paths rs Hr _ IH]; simpl.
  - split; auto. intros _ p [].
  - unfold report_one in Hr.
    destruct (lintSpec h p) as [vs|] eqn:Hlint; [|discriminate].
    destruct (summarize_inv _ _ _ Hr) as [_ E].
    assert (Hpass : pass r = true <-> forall v, In v vs -> severity v <> 0%Z).
    { rewrite E. simpl. apply no_errors_iff. }
    rewrite andb_true_iff, IH, Hpass. split.
    + intros [Hp Hrest] q [<-|Hq]; auto.
      exists vs. rewrite Hr. repeat split; auto. discriminate.
    + intros Hall. split.
      * destruct (Hall p (or_introl eq_refl)) as (vs' & Hvs' & _ & Hclean).
        rewrite Hlint in Hvs'. injection Hvs' as <-. exact Hclean.
      * intros q Hq. apply Hall. now right.
Qed.

(** X12.  The exit code is 0 exactly when, for every spec file,
    [lintSpec] returns findings on which [summarize] returns and none of
    which has severity 0 (so also when there is no spec file at all). *)
Theorem exit_zero_iff (h : Host) (args : list string) :
  exit_code (main h args) = 0%Z <->
  forall specPath, In specPath (specs h args) ->
    exists vs, lintSpec h specPath = Some vs /\
               summarize specPath vs <> None /\
               forall v, In v vs -> severity v <> 0%Z.
Proof.
  unfold main. destruct (specs h args) as [|s ss] eqn:Hspecs.
  - simpl. split; auto. intros _ p [].
  - destruct (map_throwing (report_one h) (s :: ss)) as [rs|] eqn:Hmap.
    + apply map_throwing_Some in Hmap. rewrite <- (all_pass_iff h _ _ Hmap).
      simpl. destruct (forallb pass rs); split; auto; discriminate.
    + simpl. split; [discriminate|]. intros Hall. exfalso.
      apply map_throwing_None_iff in Hmap. destruct Hmap as (p & Hp & Hthrow).
      destruct (Hall p Hp) as (vs & Hvs & Hsum & _).
      unfold report_one in Hthrow. rewrite Hvs in Hthrow. contradiction.
Qed.

(** ** The comparator *)

(** X13.  The comparator handed to [sort] is consistent, so the result
    of the sort is fixed by the language: swapping the arguments flips
    the sign, the order it induces is transitive, and it returns 0
    exactly for two groups of the same severity and the same count. *)
Theorem compare_groups_consistent (a b c : string * Group.t) :
  compare_groups b a = (- compare_groups a b)%Z /\
  ((compare_groups a b <= 0)%Z -> (compare_groups b c <= 0)%Z ->
   (compare_groups a c <= 0)%Z) /\
  (compare_groups a b = 0%Z <->
   Group.severity (snd a) = Group.severity (snd b) /\
   Group.count (snd a) = Group.count (snd b)).
Proof.
  unfold compare_groups.
  destruct (Z.eqb_spec (Group.severity (snd a) - Group.severity (snd b)) 0);
    destruct (Z.eqb_spec (Group.severity (snd b) - Group.severity (snd a)) 0);
    destruct (Z.eqb_spec (Group.severity (snd b) - Group.severity (snd c)) 0);
    destruct (Z.eqb_spec (Group.severity (snd a) - Group.severity (snd c)) 0);
    repeat split; intros; try lia.
  all: match goal with H : _ /\ _ |- _ => destruct H end; lia.
Qed.
